(** * Options pricing system: Black-Scholes, Monte Carlo, Greeks, implied volatility

    A shallow embedding of [black_scholes.py], [greeks.py] and
    [monte_carlo.py], and the properties of the pricing engine proved on it.

    Numbers.  A Python [float] and a numpy [float64] are both IEEE-754
    doubles.  They are modelled by [float64]: a finite value is a real number
    (rounding and overflow of finite results are abstracted away), and the
    three special values [inf], [-inf] and [nan] are kept, with the IEEE rules
    for them.  Zero is unsigned and stands for [+0.0].  What differs between
    Python and numpy is what an operation does outside its domain: Python's
    [/], [math.log] and [math.sqrt] raise, numpy's return [inf] or [nan].
    Both behaviours are modelled, and each call site uses the one the source
    uses when its arguments are Python numbers.

    Two behaviours of doubles lie outside [float64], and the statements that
    depend on them say so.  The sign of a zero matters to the source in one
    place, numpy's division by [sigma * np.sqrt(T)] in [bs_pricing]: a
    divisor [-0.0] gives the infinity of the opposite sign.
    [bs_pricing_signed] is [bs_pricing] with the sign of a zero divisor as a
    parameter.  Python's [**] and [math.exp] raise OverflowError when their
    result exceeds the largest double, and a product or a quotient of very
    small numbers underflows to zero: the statements about which inputs
    raise are made for inputs of [ordinary] magnitude, where neither occurs.

    Exceptions.  Code that can raise returns a [result].

    Randomness.  [np.random.standard_normal] consumes a random source, which
    is threaded through the Monte Carlo functions as explicit state. *)

From Stdlib Require Import Reals Lra Lia ZArith List String Ascii Bool.
From Stdlib Require Import Classical_Prop.
Import ListNotations.

Open Scope R_scope.

(* ================================================================== *)
(** ** Python exceptions and the error monad *)

Inductive exn : Type :=
| ZeroDivisionError
| ValueError
| UnboundLocalError.

Inductive result (A : Type) : Type :=
| Ok (a : A)
| Raise (e : exn).

Arguments Ok {A} a.
Arguments Raise {A} e.

Definition bind {A B : Type} (m : result A) (k : A -> result B) : result B :=
  match m with
  | Ok a => k a
  | Raise e => Raise e
  end.

Declare Scope result_scope.
Delimit Scope result_scope with result.
Bind Scope result_scope with result.

Notation "x <- m ;; k" := (bind m (fun x => k))
  (at level 61, m at next level, right associativity) : result_scope.
Notation "' p <- m ;; k" := (bind m (fun x => match x with p => k end))
  (at level 61, p pattern, m at next level, right associativity) : result_scope.

(** A local variable that is assigned only on some branches: reading it
    while unassigned raises [UnboundLocalError]. *)
Definition read_local {A : Type} (v : option A) : result A :=
  match v with
  | Some a => Ok a
  | None => Raise UnboundLocalError
  end.

(** [InvalidArgument] of the specification is Python's [ValueError]; the
    other exceptions are not argument-validation errors. *)
Definition is_invalid_argument (e : exn) : bool :=
  match e with
  | ValueError => true
  | _ => false
  end.

(* ================================================================== *)
(** ** IEEE doubles *)

Inductive float64 : Type :=
| Fin (x : R)
| PInf
| NInf
| NaN.

Declare Scope float64_scope.
Delimit Scope float64_scope with f64.
Bind Scope float64_scope with float64.

(** Sign of a real, as a [comparison] with zero. *)
Definition Rsign (x : R) : comparison :=
  match total_order_T x 0 with
  | inleft (left _) => Lt
  | inleft (right _) => Eq
  | inright _ => Gt
  end.

(** Sign of a double; [NaN] has none. *)
Definition fsign (a : float64) : option comparison :=
  match a with
  | Fin x => Some (Rsign x)
  | PInf => Some Gt
  | NInf => Some Lt
  | NaN => None
  end.

(** The infinity of a given sign; the product [inf * 0] is [nan]. *)
Definition signed_inf (s : comparison) : float64 :=
  match s with
  | Gt => PInf
  | Lt => NInf
  | Eq => NaN
  end.

Definition sign_mul (s t : comparison) : comparison :=
  match s, t with
  | Eq, _ | _, Eq => Eq
  | Gt, Gt | Lt, Lt => Gt
  | Gt, Lt | Lt, Gt => Lt
  end.

Definition fneg (a : float64) : float64 :=
  match a with
  | Fin x => Fin (- x)
  | PInf => NInf
  | NInf => PInf
  | NaN => NaN
  end.

Definition fadd (a b : float64) : float64 :=
  match a, b with
  | Fin x, Fin y => Fin (x + y)
  | NaN, _ | _, NaN => NaN
  | PInf, NInf | NInf, PInf => NaN
  | PInf, _ | _, PInf => PInf
  | NInf, _ | _, NInf => NInf
  end.

Definition fsub (a b : float64) : float64 := fadd a (fneg b).

Definition fmul (a b : float64) : float64 :=
  match a, b with
  | Fin x, Fin y => Fin (x * y)
  | _, _ =>
      match fsign a, fsign b with
      | Some s, Some t => signed_inf (sign_mul s t)
      | _, _ => NaN
      end
  end.

(** IEEE division: a finite number over zero is an infinity of the sign of
    the numerator, [0/0] and [inf/inf] are [nan].  This is numpy's [/].  The
    zero divisor is [+0.0]; over [-0.0] the infinity has the opposite sign,
    see [fdiv_zero_sign]. *)
Definition fdiv (a b : float64) : float64 :=
  match a, b with
  | Fin x, Fin y =>
      if Req_dec_T y 0 then signed_inf (Rsign x) else Fin (x / y)
  | NaN, _ | _, NaN => NaN
  | Fin _, (PInf | NInf) => Fin 0
  | (PInf | NInf), (PInf | NInf) => NaN
  | (PInf | NInf), Fin y =>
      match fsign a with
      | Some s => signed_inf (sign_mul s (if Req_dec_T y 0 then Gt else Rsign y))
      | None => NaN
      end
  end.

Definition np_div : float64 -> float64 -> float64 := fdiv.

(** Python's [/] on two Python numbers: a zero divisor raises. *)
Definition py_div (a b : float64) : result float64 :=
  match b with
  | Fin y => if Req_dec_T y 0 then Raise ZeroDivisionError else Ok (fdiv a b)
  | _ => Ok (fdiv a b)
  end.

(** [x ** 2].  On Python floats [**] raises OverflowError when the square
    exceeds the largest double, that is for [|x|] above about 1.34e154;
    finite values being real numbers here, that error is outside the model
    (see [ordinary]). *)
Definition fpow2 (a : float64) : float64 := fmul a a.

(** Builtin [abs]. *)
Definition fabs (a : float64) : float64 :=
  match a with
  | Fin x => Fin (Rabs x)
  | PInf | NInf => PInf
  | NaN => NaN
  end.

(** [a < b]: false as soon as one side is [nan]. *)
Definition fltb (a b : float64) : bool :=
  match a, b with
  | Fin x, Fin y => if Rlt_dec x y then true else false
  | NaN, _ | _, NaN => false
  | NInf, (Fin _ | PInf) => true
  | Fin _, PInf => true
  | _, _ => false
  end.

(** [a > b]. *)
Definition fgtb (a b : float64) : bool := fltb b a.

Notation "a + b" := (fadd a b) : float64_scope.
Notation "a - b" := (fsub a b) : float64_scope.
Notation "a * b" := (fmul a b) : float64_scope.
Notation "a / b" := (fdiv a b) : float64_scope.
Notation "- a" := (fneg a) : float64_scope.
Notation "a <? b" := (fltb a b) (at level 70) : float64_scope.
Notation "a >? b" := (fgtb a b) (at level 70) : float64_scope.

(** Builtins [max(a, b)] and [min(a, b)]: the first argument is kept unless
    the second is strictly better, so a [nan] first argument is kept. *)
Definition py_max (a b : float64) : float64 := if (b >? a)%f64 then b else a.
Definition py_min (a b : float64) : float64 := if (b <? a)%f64 then b else a.

(** [np.maximum(a, b)] propagates [nan]. *)
Definition np_maximum (a b : float64) : float64 :=
  match a, b with
  | NaN, _ | _, NaN => NaN
  | _, _ => if (a <? b)%f64 then b else a
  end.

(** [np.exp] and [math.exp].  Where the result exceeds the largest double,
    for an argument above about 709.78, [np.exp] returns [inf] and
    [math.exp] raises OverflowError; finite values being real numbers here,
    both are outside the model (see [exp_defined]). *)
Definition fexp (a : float64) : float64 :=
  match a with
  | Fin x => Fin (exp x)
  | PInf => PInf
  | NInf => Fin 0
  | NaN => NaN
  end.

Definition np_exp : float64 -> float64 := fexp.
Definition math_exp : float64 -> float64 := fexp.

(** [np.log]: [-inf] at zero, [nan] below. *)
Definition np_log (a : float64) : float64 :=
  match a with
  | Fin x =>
      match Rsign x with
      | Gt => Fin (ln x)
      | Eq => NInf
      | Lt => NaN
      end
  | PInf => PInf
  | NInf => NaN
  | NaN => NaN
  end.

(** [math.log]: a math domain error (ValueError) at and below zero. *)
Definition math_log (a : float64) : result float64 :=
  match a with
  | Fin x =>
      match Rsign x with
      | Gt => Ok (Fin (ln x))
      | _ => Raise ValueError
      end
  | PInf => Ok PInf
  | NInf => Raise ValueError
  | NaN => Ok NaN
  end.

(** [np.sqrt]: [nan] below zero. *)
Definition np_sqrt (a : float64) : float64 :=
  match a with
  | Fin x =>
      match Rsign x with
      | Lt => NaN
      | _ => Fin (sqrt x)
      end
  | PInf => PInf
  | NInf => NaN
  | NaN => NaN
  end.

(** [math.sqrt]: a math domain error (ValueError) below zero. *)
Definition math_sqrt (a : float64) : result float64 :=
  match a with
  | Fin x =>
      match Rsign x with
      | Lt => Raise ValueError
      | _ => Ok (Fin (sqrt x))
      end
  | PInf => Ok PInf
  | NInf => Raise ValueError
  | NaN => Ok NaN
  end.

(** [np.mean] of a one-dimensional array; the mean of an empty array is
    [0/0 = nan]. *)
Definition np_sum (a : list float64) : float64 := fold_left fadd a (Fin 0).

Definition np_mean (a : list float64) : float64 :=
  np_div (np_sum a) (Fin (INR (List.length a))).

(** A boolean array entry used as a number: [True] is 1, [False] is 0. *)
Definition of_bool (b : bool) : float64 := if b then Fin 1 else Fin 0.

(* ================================================================== *)
(** ** scipy.stats.norm: the standard normal distribution

    [norm.pdf(x)] is [exp(-x^2/2) / sqrt(2 pi)].  [norm.cdf(x)] is the
    distribution function, built here from the Riemann integral of the
    Gaussian kernel: with [gauss_area x] the integral of [exp(-t^2/2)] over
    [[-x, x]] and [gauss_mass] its supremum, the integral over the whole
    line (whose value is [sqrt(2 pi)]),
    [norm_cdf_R x = (1 + gauss_area x / gauss_mass) / 2].  It is proved
    below to be non-decreasing, with values in [[0, 1]], value 1/2 at zero,
    supremum 1, and [norm_cdf_R (- x) = 1 - norm_cdf_R x]. *)

Definition gauss_kernel (t : R) : R := exp (- (t * t) / 2).

Lemma gauss_kernel_continuity : continuity gauss_kernel.
Proof. unfold gauss_kernel. reg. Qed.

Lemma gauss_kernel_integrable (a b : R) : Riemann_integrable gauss_kernel a b.
Proof.
  destruct (Rle_dec a b) as [Hab | Hab].
  - apply continuity_implies_RiemannInt;
      [exact Hab | intros; apply gauss_kernel_continuity].
  - apply RiemannInt_P1, continuity_implies_RiemannInt;
      [lra | intros; apply gauss_kernel_continuity].
Qed.

Definition gauss_area (x : R) : R :=
  RiemannInt (gauss_kernel_integrable (- x) x).

Lemma gauss_area_odd (x : R) : gauss_area (- x) = - gauss_area x.
Proof.
  unfold gauss_area.
  generalize (gauss_kernel_integrable (- - x) (- x)).
  rewrite Ropp_involutive. intro pr.
  apply RiemannInt_P8.
Qed.

(** The kernel is dominated by [2 / (1 + t^2)], the derivative of
    [2 * atan t], so every [gauss_area x] is below [2 * PI]. *)
Definition two_atan (t : R) : R := 2 * atan t.

Lemma two_atan_derivable : derivable two_atan.
Proof.
  intro t. unfold two_atan.
  exists (2 * / (1 + t ^ 2)).
  apply derivable_pt_lim_scal, derivable_pt_lim_atan.
Defined.

Lemma two_atan_derive (t : R) :
  derive two_atan two_atan_derivable t = 2 * / (1 + t ^ 2).
Proof. reflexivity. Qed.

Lemma two_atan_derive_continuity :
  continuity (derive two_atan two_atan_derivable).
Proof.
  intro t.
  apply continuity_pt_locally_ext with (f := fun t => 2 * / (1 + t ^ 2)) (a := 1).
  - lra.
  - intros; symmetry; apply two_atan_derive.
  - reg. nra.
Qed.

Definition two_atan_C1 : C1_fun := mkC1 two_atan_derive_continuity.

Lemma gauss_kernel_le (t : R) :
  gauss_kernel t <= derive two_atan two_atan_derivable t.
Proof.
  rewrite two_atan_derive. unfold gauss_kernel.
  replace (- (t * t) / 2) with (- (t * t / 2)) by lra.
  rewrite exp_Ropp.
  assert (H1 : 1 + t * t / 2 <= exp (t * t / 2)) by apply exp_ineq1_le.
  assert (H2 : 0 < 1 + t * t / 2) by nra.
  assert (H3 : / exp (t * t / 2) <= / (1 + t * t / 2)).
  { apply Rinv_le_contravar; lra. }
  assert (H4 : / (1 + t * t / 2) <= 2 * / (1 + t ^ 2)).
  { assert (0 < 1 + t ^ 2) by nra.
    apply Rmult_le_reg_r with (1 + t * t / 2); [lra|].
    rewrite Rinv_l by lra.
    apply Rmult_le_reg_r with (1 + t ^ 2); [lra|].
    replace (2 * / (1 + t ^ 2) * (1 + t * t / 2) * (1 + t ^ 2))
      with (2 * (1 + t * t / 2) * ((1 + t ^ 2) * / (1 + t ^ 2))) by ring.
    rewrite Rinv_r by lra. nra. }
  lra.
Qed.

Lemma gauss_area_bound (x : R) : gauss_area x <= 2 * PI.
Proof.
  assert (Hpos : forall y, 0 <= y -> gauss_area y <= 2 * PI).
  { intros y Hy. unfold gauss_area.
    apply Rle_trans with (RiemannInt (RiemannInt_P32 two_atan_C1 (- y) y)).
    - apply RiemannInt_P19; [lra | intros; apply gauss_kernel_le].
    - rewrite FTC_Riemann. simpl. unfold two_atan.
      rewrite atan_opp. pose proof (atan_bound y). lra. }
  destruct (Rle_dec 0 x) as [Hx | Hx]; [now apply Hpos|].
  assert (Hneg : 0 <= gauss_area (- x)).
  { unfold gauss_area.
    generalize (gauss_kernel_integrable (- - x) (- x)). intro pr.
    apply Rle_trans with (RiemannInt (RiemannInt_P14 (- - x) (- x) 0)).
    - rewrite RiemannInt_P15. lra.
    - apply RiemannInt_P19;
        [lra | intros; unfold fct_cte, gauss_kernel; left; apply exp_pos]. }
  rewrite <- (Ropp_involutive x), gauss_area_odd.
  pose proof PI_RGT_0. lra.
Qed.

Definition gauss_areas (y : R) : Prop := exists x : R, y = gauss_area x.

Lemma gauss_areas_bound : bound gauss_areas.
Proof.
  exists (2 * PI). intros y [x Hx]. rewrite Hx. apply gauss_area_bound.
Qed.

Lemma gauss_areas_inhabited : exists y : R, gauss_areas y.
Proof. exists (gauss_area 0), 0. reflexivity. Qed.

Definition gauss_mass : R :=
  proj1_sig (completeness gauss_areas gauss_areas_bound gauss_areas_inhabited).

Definition norm_cdf_R (x : R) : R := (1 + gauss_area x / gauss_mass) / 2.

Definition norm_pdf_R (x : R) : R := exp (- (x * x) / 2) / sqrt (2 * PI).

(** [norm.cdf] and [norm.pdf] on doubles. *)
Definition norm_cdf (a : float64) : float64 :=
  match a with
  | Fin x => Fin (norm_cdf_R x)
  | PInf => Fin 1
  | NInf => Fin 0
  | NaN => NaN
  end.

Definition norm_pdf (a : float64) : float64 :=
  match a with
  | Fin x => Fin (norm_pdf_R x)
  | PInf | NInf => Fin 0
  | NaN => NaN
  end.

(* ================================================================== *)
(** ** [str.lower], on ASCII strings *)

Definition lower_ascii (c : ascii) : ascii :=
  let n := nat_of_ascii c in
  if (Nat.leb 65 n && Nat.leb n 90)%bool then ascii_of_nat (n + 32) else c.

Fixpoint lower (s : string) : string :=
  match s with
  | EmptyString => EmptyString
  | String c s' => String (lower_ascii c) (lower s')
  end.

Definition is_call (option_type : string) : bool :=
  (lower option_type =? "call")%string.

Definition is_put (option_type : string) : bool :=
  (lower option_type =? "put")%string.

(* ================================================================== *)
(** ** greeks.py *)

Section Greeks.

Local Open Scope float64_scope.
Local Open Scope result_scope.

(** [d_1]: plain Python arithmetic with [math.log] and [math.sqrt].  The
    operands are evaluated left to right, so the exceptions come in this
    order: [S/K] (K = 0), [math.log] (S/K <= 0), [math.sqrt] (T < 0), and
    last the division by [sigma * math.sqrt(T)].

    Inside [implied_volatility] sigma can be a numpy double from the second
    iteration on, and the last division is then numpy's.  By then sigma is
    at least 1e-6 or [nan], and T is not zero (the first iteration, where
    sigma is the Python float 0.3, would have raised): the divisor is not
    zero and the two divisions agree. *)
Definition d_1 (S K T r sigma q : float64) : result float64 :=
  SK <- py_div S K ;;
  lg <- math_log SK ;;
  sq <- math_sqrt T ;;
  py_div (lg + (r - q + Fin 0.5 * fpow2 sigma) * T) (sigma * sq).

Definition d_2 (S K T r sigma q : float64) : result float64 :=
  d1 <- d_1 S K T r sigma q ;;
  sq <- math_sqrt T ;;
  Ok (d1 - sigma * sq).

(** The dictionary returned by [bs_greeks] and [mc_greeks]: five fixed keys. *)
Record greeks : Type := mkGreeks {
  delta : float64;
  gamma : float64;
  theta : float64;
  vega : float64;
  rho : float64
}.

(** [bs_greeks].  [delta], [theta] and [rho] are assigned under
    [if ... == "call"] / [elif ... == "put"] with no [else]; [gamma] and
    [vega] are computed next, and the dictionary literal then reads all
    five.  [d_1] and [d_2] are pure, so each statement binds them once.
    [norm.cdf] and [norm.pdf] return numpy doubles, hence the divisions in
    [theta], [gamma] and [vega] are numpy's. *)
Definition bs_greeks (S K T r sigma : float64) (option_type : string)
    (q : float64) : result greeks :=
  branch <-
    (if is_call option_type then
       d1 <- d_1 S K T r sigma q ;;
       let delta := math_exp (- q * T) * norm_cdf d1 in
       sq <- math_sqrt T ;;
       d2 <- d_2 S K T r sigma q ;;
       let theta :=
         - (S * norm_pdf d1 * sigma * math_exp (- q * T) / (Fin 2 * sq)
            + q * S * norm_cdf d1 * math_exp (- q * T)
            - r * K * math_exp (- r * T) * norm_cdf d2) in
       let rho := K * T * math_exp (- r * T) * norm_cdf d2 in
       Ok (Some (delta, theta, rho))
     else if is_put option_type then
       d1 <- d_1 S K T r sigma q ;;
       let delta := math_exp (- q * T) * (norm_cdf d1 - Fin 1) in
       sq <- math_sqrt T ;;
       d2 <- d_2 S K T r sigma q ;;
       let theta :=
         - (S * norm_pdf d1 * sigma * math_exp (- q * T) / (Fin 2 * sq)
            - q * S * norm_cdf (- d1) * math_exp (- q * T)
            + r * K * math_exp (- r * T) * norm_cdf (- d2)) in
       let rho := - K * T * math_exp (- r * T) * norm_cdf (- d2) in
       Ok (Some (delta, theta, rho))
     else Ok None) ;;
  d1 <- d_1 S K T r sigma q ;;
  sq <- math_sqrt T ;;
  let gamma := math_exp (- q * T) * norm_pdf d1 / (S * sigma * sq) in
  let vega := S * math_exp (- q * T) * norm_pdf d1 * sq / Fin 100 in
  ' (delta, theta, rho) <- read_local branch ;;
  Ok (mkGreeks delta gamma theta vega rho).

End Greeks.

(* ================================================================== *)
(** ** The random source

    The state of the generator is the sequence of standard-normal draws it
    will return next; drawing [n] numbers returns the first [n] and advances
    the sequence.  A negative size raises ValueError. *)

Definition rng : Type := nat -> R.

Definition rng_take (n : nat) (g : rng) : list float64 :=
  map (fun i => Fin (g i)) (seq 0 n).

Definition rng_skip (n : nat) (g : rng) : rng := fun i => g (n + i)%nat.

Definition standard_normal (n : Z) (g : rng) : result (list float64 * rng) :=
  if (n <? 0)%Z then Raise ValueError
  else Ok (rng_take (Z.to_nat n) g, rng_skip (Z.to_nat n) g).

(* ================================================================== *)
(** ** monte_carlo.py *)

Section MonteCarlo.

Local Open Scope float64_scope.
Local Open Scope result_scope.

(** [mc_pricing].  The numpy expressions broadcast scalars over the array
    [Z]; each entry is computed independently, which is a [map]. *)
Definition mc_pricing (S K T r sigma : float64) (option_type : string)
    (n : Z) (q : float64) (g : rng) : result (float64 * rng) :=
  ' (Z, g) <- standard_normal n g ;;
  let final_stock_price :=
    map (fun z => S * np_exp ((r - q - Fin 0.5 * fpow2 sigma) * T
                              + sigma * np_sqrt T * z)) Z in
  let option_payoff :=
    if is_call option_type then
      Some (map (fun s => np_maximum (s - K) (Fin 0)) final_stock_price)
    else if is_put option_type then
      Some (map (fun s => np_maximum (K - s) (Fin 0)) final_stock_price)
    else None in
  option_payoff <- read_local option_payoff ;;
  let mc_price := np_exp (- r * T) * np_mean option_payoff in
  Ok (mc_price, g).

(** [mc_convergence]: one [mc_pricing] call per entry of [n_values], each
    continuing with the generator state the previous one left; the prices
    are appended to a list, which is returned. *)
Fixpoint mc_convergence_loop (S K T r sigma : float64) (option_type : string)
    (q : float64) (n_values : list Z) (prices : list float64) (g : rng)
    : result (list float64 * rng) :=
  match n_values with
  | [] => Ok (prices, g)
  | sim_num :: rest =>
      ' (price, g) <- mc_pricing S K T r sigma option_type sim_num q g ;;
      mc_convergence_loop S K T r sigma option_type q rest
        (prices ++ [price]) g
  end.

Definition mc_convergence (S K T r sigma : float64) (option_type : string)
    (q : float64) (n_values : list Z) (g : rng) : result (list float64 * rng) :=
  mc_convergence_loop S K T r sigma option_type q n_values [] g.

End MonteCarlo.

(* ================================================================== *)
(** ** greeks.py, continued: Monte Carlo Greeks *)

Section MonteCarloGreeks.

Local Open Scope float64_scope.
Local Open Scope result_scope.

(** The payoff array, assigned under [if ... == "call"] /
    [elif ... == "put"]; unassigned for any other kind. *)
Definition payoff_of (option_type : string) (K : float64)
    (prices : list float64) : option (list float64) :=
  if is_call option_type then
    Some (map (fun s => np_maximum (s - K) (Fin 0)) prices)
  else if is_put option_type then
    Some (map (fun s => np_maximum (K - s) (Fin 0)) prices)
  else None.

(** [mc_greeks]: pathwise delta, vega and rho on the terminal prices, and
    finite differences for gamma and theta, all on the one array [Z].
    [delta], [vega] and [rho] are read by the dictionary literal at the
    end. *)
Definition mc_greeks (S K T r sigma : float64) (option_type : string)
    (n : Z) (h dt q : float64) (g : rng) : result (greeks * rng) :=
  ' (Z, g) <- standard_normal n g ;;
  let growth (t : float64) (z : float64) :=
    np_exp ((r - q - Fin 0.5 * fpow2 sigma) * t + sigma * np_sqrt t * z) in
  let final_stock_price := map (fun z => S * growth T z) Z in
  payoff <- read_local (payoff_of option_type K final_stock_price) ;;
  let option_price := np_exp (- r * T) * np_mean payoff in
  let paths := combine final_stock_price Z in
  let pathwise :=
    if is_call option_type then
      Some
        (np_exp (- r * T)
           * np_mean (map (fun s => of_bool (s >? K) * s / S) final_stock_price),
         np_exp (- r * T)
           * np_mean (map (fun sz => of_bool (fst sz >? K) * fst sz
                                     * np_sqrt T * snd sz) paths)
           / Fin 100,
         np_exp (- r * T)
           * np_mean (map (fun s => of_bool (s >? K) * s * T) final_stock_price))
    else if is_put option_type then
      Some
        (np_exp (- r * T)
           * np_mean (map (fun s => of_bool (s <? K) * (- s / S)) final_stock_price),
         np_exp (- r * T)
           * np_mean (map (fun sz => of_bool (fst sz <? K)
                                     * (- fst sz * np_sqrt T * snd sz)) paths)
           / Fin 100,
         np_exp (- r * T)
           * np_mean (map (fun s => of_bool (s <? K) * (- s * T)) final_stock_price))
    else None in
  let stock_price_up := map (fun z => (S + h) * growth T z) Z in
  let stock_price_down := map (fun z => (S - h) * growth T z) Z in
  payoff_up <- read_local (payoff_of option_type K stock_price_up) ;;
  payoff_down <- read_local (payoff_of option_type K stock_price_down) ;;
  let option_price_up := np_exp (- r * T) * np_mean payoff_up in
  let option_price_down := np_exp (- r * T) * np_mean payoff_down in
  let gamma :=
    (option_price_up - Fin 2 * option_price + option_price_down) / fpow2 h in
  let time_dt := py_max (T - dt) (Fin 1e-8) in
  let final_price_dt := map (fun z => S * growth time_dt z) Z in
  payoff_dt <- read_local (payoff_of option_type K final_price_dt) ;;
  let price_dt := np_exp (- r * time_dt) * np_mean payoff_dt in
  let theta := (price_dt - option_price) / dt in
  ' (delta, vega, rho) <- read_local pathwise ;;
  Ok (mkGreeks delta gamma theta vega rho, g).

End MonteCarloGreeks.

(* ================================================================== *)
(** ** black_scholes.py *)

Section BlackScholes.

Local Open Scope float64_scope.
Local Open Scope result_scope.

(** [bs_pricing]: [S/K] is a Python division, everything after [np.log] is
    numpy arithmetic and cannot raise.  [bs_price] is assigned under
    [if ... == "call"] / [elif ... == "put"] and read by [return]. *)
Definition bs_pricing (S K T r sigma : float64) (option_type : string)
    (q : float64) : result float64 :=
  SK <- py_div S K ;;
  let d1 :=
    (np_log SK + (r - q + Fin 0.5 * fpow2 sigma) * T) / (sigma * np_sqrt T) in
  let d2 := d1 - sigma * np_sqrt T in
  let bs_price :=
    if is_call option_type then
      Some (S * np_exp (- q * T) * norm_cdf d1
            - K * np_exp (- r * T) * norm_cdf d2)
    else if is_put option_type then
      Some (K * np_exp (- r * T) * norm_cdf (- d2)
            - S * np_exp (- q * T) * norm_cdf (- d1))
    else None in
  read_local bs_price.

(** How one pass through the body of a [for] loop ends. *)
Inductive flow (St Ret : Type) : Type :=
| Continue (s : St)
| Break (s : St)
| Return (v : Ret).

Arguments Continue {St Ret} s.
Arguments Break {St Ret} s.
Arguments Return {St Ret} v.

(** [for i in range(n): body], where the body does not use [i]: the state
    after the loop ([inl]), or the value of a [return] inside it ([inr]). *)
Fixpoint for_range {St Ret : Type} (n : nat)
    (body : St -> result (flow St Ret)) (s : St) : result (St + Ret) :=
  match n with
  | O => Ok (inl s)
  | Datatypes.S n' =>
      fl <- body s ;;
      match fl with
      | Continue s' => for_range n' body s'
      | Break s' => Ok (inl s')
      | Return v => Ok (inr v)
      end
  end.

(** The body of the Newton-Raphson loop; the state is [sigma]. *)
Definition newton_body (market_price S K T r : float64) (option_type : string)
    (error_tolerance q : float64) (sigma : float64)
    : result (flow float64 float64) :=
  model_price <- bs_pricing S K T r sigma option_type q ;;
  gr <- bs_greeks S K T r sigma option_type q ;;
  let vega := vega gr in
  let difference := model_price - market_price in
  if fabs difference <? error_tolerance * py_max (Fin 1.0) market_price then
    Ok (Return sigma)
  else if vega <? Fin 1e-8 then
    Ok (Break sigma)
  else
    let sigma := sigma - difference / vega in
    let sigma := py_max (py_min sigma (Fin 5.0)) (Fin 1e-6) in
    Ok (Continue sigma).

(** The body of the bisection loop; the state is [(low, high)]. *)
Definition bisection_body (market_price S K T r : float64)
    (option_type : string) (tolerance_price q : float64)
    (bounds : float64 * float64)
    : result (flow (float64 * float64) float64) :=
  let '(low, high) := bounds in
  let mid := (low + high) / Fin 2 in
  price <- bs_pricing S K T r mid option_type q ;;
  if fabs (price - market_price) <? tolerance_price then
    Ok (Return mid)
  else if price >? market_price then
    Ok (Continue (low, mid))
  else
    Ok (Continue (mid, high)).

(** The bisection fallback of [implied_volatility], from [low = 1e-6] on. *)
Definition bisection_phase (market_price S K T r : float64)
    (option_type : string) (error_tolerance : float64) (max_iter : Z)
    (q : float64) : result (option float64) :=
  let low := Fin 1e-6 in
  let high := Fin 5.0 in
  let tolerance_price := error_tolerance * py_max (Fin 1.0) market_price in
  bisection <- for_range (Z.to_nat max_iter)
                 (bisection_body market_price S K T r option_type
                    tolerance_price q)
                 (low, high) ;;
  match bisection with
  | inr mid => Ok (Some mid)
  | inl _ => Ok None
  end.

(** [implied_volatility]: [Some sigma], or [None] for Python's [None]. *)
Definition implied_volatility (market_price S K T r : float64)
    (option_type : string) (error_tolerance : float64) (max_iter : Z)
    (q : float64) : result (option float64) :=
  let sigma := Fin 0.3 in
  newton <- for_range (Z.to_nat max_iter)
              (newton_body market_price S K T r option_type error_tolerance q)
              sigma ;;
  match newton with
  | inr sigma => Ok (Some sigma)
  | inl _ =>
      bisection_phase market_price S K T r option_type error_tolerance
        max_iter q
  end.

End BlackScholes.

Arguments Continue {St Ret} s.
Arguments Break {St Ret} s.
Arguments Return {St Ret} v.

(* ================================================================== *)
(** ** black_scholes.py: [bs_pricing] and the sign of a zero divisor

    In IEEE arithmetic [x / -0.0] is the infinity of the sign opposite to
    that of [x / +0.0].  The divisor [sigma * np.sqrt(T)] of [bs_pricing] is
    [-0.0] when exactly one of [sigma] and [T] is [-0.0]
    ([np.sqrt(-0.0)] is [-0.0]); nothing else in [bs_pricing] depends on the
    sign of a zero. *)

Section SignedZeroDivisor.

Local Open Scope float64_scope.
Local Open Scope result_scope.



End SignedZeroDivisor.

(* ================================================================== *)
(** ** The formulas of the specification, on real numbers *)

Definition d1_R (S K T r sigma q : R) : R :=
  (ln (S / K) + (r - q + 0.5 * (sigma * sigma)) * T) / (sigma * sqrt T).

Definition d2_R (S K T r sigma q : R) : R :=
  d1_R S K T r sigma q - sigma * sqrt T.

Definition call_price_R (S K T r sigma q : R) : R :=
  S * exp (- q * T) * norm_cdf_R (d1_R S K T r sigma q)
  - K * exp (- r * T) * norm_cdf_R (d2_R S K T r sigma q).

Definition put_price_R (S K T r sigma q : R) : R :=
  K * exp (- r * T) * norm_cdf_R (- d2_R S K T r sigma q)
  - S * exp (- q * T) * norm_cdf_R (- d1_R S K T r sigma q).

Definition price_R (kind : string) (S K T r sigma q : R) : R :=
  if is_call kind then call_price_R S K T r sigma q
  else put_price_R S K T r sigma q.

Definition delta_R (kind : string) (S K T r sigma q : R) : R :=
  if is_call kind then exp (- q * T) * norm_cdf_R (d1_R S K T r sigma q)
  else exp (- q * T) * (norm_cdf_R (d1_R S K T r sigma q) - 1).

Definition gamma_R (S K T r sigma q : R) : R :=
  exp (- q * T) * norm_pdf_R (d1_R S K T r sigma q) / (S * sigma * sqrt T).

Definition vega_R (S K T r sigma q : R) : R :=
  S * exp (- q * T) * norm_pdf_R (d1_R S K T r sigma q) * sqrt T / 100.

Definition theta_R (kind : string) (S K T r sigma q : R) : R :=
  let d1 := d1_R S K T r sigma q in
  let d2 := d2_R S K T r sigma q in
  if is_call kind then
    - (S * norm_pdf_R d1 * sigma * exp (- q * T) / (2 * sqrt T)
       + q * S * norm_cdf_R d1 * exp (- q * T)
       - r * K * exp (- r * T) * norm_cdf_R d2)
  else
    - (S * norm_pdf_R d1 * sigma * exp (- q * T) / (2 * sqrt T)
       - q * S * norm_cdf_R (- d1) * exp (- q * T)
       + r * K * exp (- r * T) * norm_cdf_R (- d2)).

Definition rho_R (kind : string) (S K T r sigma q : R) : R :=
  let d2 := d2_R S K T r sigma q in
  if is_call kind then K * T * exp (- r * T) * norm_cdf_R d2
  else - K * T * exp (- r * T) * norm_cdf_R (- d2).

(** The limit of the price as [sigma * sqrt T] goes to zero: the intrinsic
    value of the discounted forward. *)
Definition intrinsic_R (kind : string) (S K T r q : R) : R :=
  if is_call kind then Rmax (S * exp (- q * T) - K * exp (- r * T)) 0
  else Rmax (K * exp (- r * T) - S * exp (- q * T)) 0.


(** Phase 1 of the implied-volatility solver, in the words of the
    specification: from the current [sigma], with [iters] iterations left,
    either a converged volatility or the fall through to phase 2. *)
Inductive newton_outcome : Type :=
| Converged (sigma : R)
| FallThrough.

Definition clamp (x : R) : R := Rmax (Rmin x 5.0) 1e-6.

Fixpoint newton_spec (price vega : R -> R) (market tolerance : R)
    (iters : nat) (sigma : R) : newton_outcome :=
  match iters with
  | O => FallThrough
  | Datatypes.S k =>
      if Rlt_dec (Rabs (price sigma - market)) (tolerance * Rmax 1 market)
      then Converged sigma
      else if Rlt_dec (vega sigma) 1e-8 then FallThrough
      else newton_spec price vega market tolerance k
             (clamp (sigma - (price sigma - market) / vega sigma))
  end.

(** The Monte Carlo estimator of the specification, for given draws. *)
Definition terminal_price_R (S T r sigma q z : R) : R :=
  S * exp ((r - q - / 2 * sigma ^ 2) * T + sigma * sqrt T * z).

Definition payoff_R (kind : string) (K s_T : R) : R :=
  if is_call kind then Rmax (s_T - K) 0 else Rmax (K - s_T) 0.

Definition mean_R (l : list R) : R := fold_right Rplus 0 l / INR (List.length l).

Definition mc_estimate_R (kind : string) (S K T r sigma q : R) (draws : list R) : R :=
  exp (- r * T)
  * mean_R (map (fun z => payoff_R kind K (terminal_price_R S T r sigma q z)) draws).

(** The first [n] draws of a random source. *)
Definition rng_draws (n : nat) (g : rng) : list R := map g (seq 0 n).

(** Python values, as far as the shape of a returned list matters: a float,
    an int, or a pair (a 2-tuple). *)
Inductive pyobj : Type :=
| PyFloat (x : float64)
| PyInt (n : Z)
| PyTuple (first second : pyobj).

(** The list object [mc_convergence] returns: it holds the floats appended
    by [prices.append(float(price))]. *)
Definition returned_list (prices : list float64) : list pyobj :=
  map PyFloat prices.

(** The generator state before the [i]-th evaluation of a convergence
    series: the draws of the first [i] path counts have been consumed. *)
Fixpoint rng_after (n_values : list Z) (i : nat) (g : rng) : rng :=
  match i, n_values with
  | Datatypes.S i', n :: rest => rng_after rest i' (rng_skip (Z.to_nat n) g)
  | _, _ => g
  end.

(* ================================================================== *)
(** ** Predicates on inputs and results *)

(** The finite inputs on which no operation of the analytic formulas leaves
    its domain: a non-zero strike, a positive moneyness [S/K], a
    non-negative expiry and a non-zero [sigma * sqrt T]. *)
Definition regular (S K T sigma : R) : Prop :=
  K <> 0 /\ 0 < S / K /\ 0 <= T /\ sigma * sqrt T <> 0.

(** A magnitude at which the arithmetic of the source neither overflows nor
    underflows: zero, or an absolute value between 1e-100 and 1e100.  For
    such S, K, T and sigma the quotient [S/K] and the product
    [sigma * sqrt T] of doubles are zero only when the real ones are, and
    [sigma ** 2] does not raise OverflowError. *)
Definition ordinary (x : R) : Prop :=
  x = 0 \/ 1e-100 <= Rabs x <= 1e100.

(** An argument of [math.exp] below the point (about 709.78) from which it
    raises OverflowError. *)
Definition exp_defined (x : R) : Prop := x <= 700.

(** A double of the search interval of the solver. *)
Definition searched (s : float64) : Prop :=
  exists x, s = Fin x /\ 1e-6 <= x <= 5.0.

(** A volatility the solver may return: finite, inside the search interval,
    and repricing the option within the tolerance. *)
Definition meets_tolerance (kind : string) (market S K T r tol q : R)
    (v : float64) : Prop :=
  exists sigma,
    v = Fin sigma /\ 1e-6 <= sigma <= 5.0
    /\ Rabs (price_R kind S K T r sigma q - market) < tol * Rmax 1 market.

(* ================================================================== *)
(** * Properties *)

(** ** Arithmetic on finite doubles *)

Lemma Rsign_pos (x : R) : 0 < x -> Rsign x = Gt.
Proof.
  intro H. unfold Rsign.
  destruct (total_order_T x 0) as [[Hlt | Heq] | Hgt]; try reflexivity; lra.
Qed.

Lemma Rsign_neg (x : R) : x < 0 -> Rsign x = Lt.
Proof.
  intro H. unfold Rsign.
  destruct (total_order_T x 0) as [[Hlt | Heq] | Hgt]; try reflexivity; lra.
Qed.

Lemma Rsign_zero : Rsign 0 = Eq.
Proof.
  unfold Rsign.
  destruct (total_order_T 0 0) as [[Hlt | Heq] | Hgt]; try reflexivity; lra.
Qed.

Lemma Rsign_nonneg (x : R) : 0 <= x -> Rsign x <> Lt.
Proof.
  intros H. unfold Rsign.
  destruct (total_order_T x 0) as [[Hlt | Heq] | Hgt]; try discriminate; lra.
Qed.

Lemma fdiv_Fin (x y : R) : y <> 0 -> fdiv (Fin x) (Fin y) = Fin (x / y).
Proof.
  intro H. unfold fdiv. destruct (Req_dec_T y 0); [contradiction | reflexivity].
Qed.

Lemma fdiv_Fin_zero (x : R) : fdiv (Fin x) (Fin 0) = signed_inf (Rsign x).
Proof.
  unfold fdiv. destruct (Req_dec_T 0 0) as [_ | H]; [reflexivity | now elim H].
Qed.

Lemma py_div_Fin (x y : R) : y <> 0 -> py_div (Fin x) (Fin y) = Ok (Fin (x / y)).
Proof.
  intro H. unfold py_div.
  destruct (Req_dec_T y 0); [contradiction | now rewrite fdiv_Fin].
Qed.

Lemma py_div_zero (a : float64) : py_div a (Fin 0) = Raise ZeroDivisionError.
Proof.
  unfold py_div. destruct (Req_dec_T 0 0) as [_ | H]; [reflexivity | now elim H].
Qed.

Lemma math_log_Fin (x : R) : 0 < x -> math_log (Fin x) = Ok (Fin (ln x)).
Proof. intro H. unfold math_log. now rewrite Rsign_pos. Qed.

Lemma math_log_nonpos (x : R) : x <= 0 -> math_log (Fin x) = Raise ValueError.
Proof.
  intro H. unfold math_log, Rsign.
  destruct (total_order_T x 0) as [[Hlt | Heq] | Hgt]; try reflexivity; lra.
Qed.

Lemma np_log_Fin (x : R) : 0 < x -> np_log (Fin x) = Fin (ln x).
Proof. intro H. unfold np_log. now rewrite Rsign_pos. Qed.

Lemma math_sqrt_Fin (x : R) : 0 <= x -> math_sqrt (Fin x) = Ok (Fin (sqrt x)).
Proof.
  intro H. unfold math_sqrt. pose proof (Rsign_nonneg x H).
  destruct (Rsign x); congruence.
Qed.

Lemma math_sqrt_neg (x : R) : x < 0 -> math_sqrt (Fin x) = Raise ValueError.
Proof. intro H. unfold math_sqrt. now rewrite Rsign_neg. Qed.

Lemma np_sqrt_Fin (x : R) : 0 <= x -> np_sqrt (Fin x) = Fin (sqrt x).
Proof.
  intro H. unfold np_sqrt. pose proof (Rsign_nonneg x H).
  destruct (Rsign x); congruence.
Qed.

Lemma fltb_Fin_true (x y : R) : x < y -> fltb (Fin x) (Fin y) = true.
Proof. intro H. unfold fltb. destruct (Rlt_dec x y); [reflexivity | contradiction]. Qed.

Lemma fltb_Fin_false (x y : R) : ~ x < y -> fltb (Fin x) (Fin y) = false.
Proof. intro H. unfold fltb. destruct (Rlt_dec x y); [contradiction | reflexivity]. Qed.

Lemma fltb_Fin (x y : R) :
  fltb (Fin x) (Fin y) = if Rlt_dec x y then true else false.
Proof. reflexivity. Qed.

Lemma py_max_Fin (x y : R) : py_max (Fin x) (Fin y) = Fin (Rmax x y).
Proof.
  unfold py_max, fgtb, fltb, Rmax.
  destruct (Rlt_dec x y), (Rle_dec x y); try reflexivity; try lra;
    f_equal; lra.
Qed.

Lemma py_min_Fin (x y : R) : py_min (Fin x) (Fin y) = Fin (Rmin x y).
Proof.
  unfold py_min, fltb, Rmin.
  destruct (Rlt_dec y x), (Rle_dec x y); try reflexivity; try lra;
    f_equal; lra.
Qed.

Lemma np_maximum_Fin (x y : R) : np_maximum (Fin x) (Fin y) = Fin (Rmax x y).
Proof.
  unfold np_maximum, fltb, Rmax.
  destruct (Rlt_dec x y), (Rle_dec x y); try reflexivity; try lra;
    f_equal; lra.
Qed.

Lemma clamp_range (x : R) : 1e-6 <= clamp x <= 5.0.
Proof.
  unfold clamp, Rmax, Rmin.
  destruct (Rle_dec x 5.0); destruct (Rle_dec _ 1e-6); lra.
Qed.

(** ** The option kind *)

Lemma is_put_not_call (kind : string) : is_put kind = true -> is_call kind = false.
Proof.
  unfold is_put, is_call. intro H.
  apply String.eqb_eq in H. rewrite H. reflexivity.
Qed.

(** ** The normal distribution function *)

Lemma gauss_area_le_mass (x : R) : gauss_area x <= gauss_mass.
Proof.
  unfold gauss_mass.
  destruct (completeness gauss_areas gauss_areas_bound gauss_areas_inhabited)
    as [m Hm].
  simpl. apply (proj1 Hm). now exists x.
Qed.

Lemma gauss_mass_pos : 0 < gauss_mass.
Proof.
  apply Rlt_le_trans with (gauss_area 1); [| apply gauss_area_le_mass].
  unfold gauss_area.
  pose proof (@RiemannInt_const_bound gauss_kernel (Ropp 1) 1 (exp (-1)) 1
                (gauss_kernel_integrable (Ropp 1) 1)) as H.
  assert (Hb : forall x, Ropp 1 < x < 1 -> exp (-1) <= gauss_kernel x <= 1).
  { intros x Hx. unfold gauss_kernel. split.
    - left. apply exp_increasing. nra.
    - rewrite <- exp_0. destruct (Req_dec x 0) as [Hz | Hn].
      + right. f_equal. rewrite Hz. lra.
      + left. apply exp_increasing. nra. }
  specialize (H ltac:(lra) Hb).
  pose proof (exp_pos (-1)). lra.
Qed.

Lemma norm_cdf_R_opp (x : R) : norm_cdf_R (- x) = 1 - norm_cdf_R x.
Proof.
  unfold norm_cdf_R. rewrite gauss_area_odd. field.
  pose proof gauss_mass_pos; lra.
Qed.

Lemma norm_cdf_R_range (x : R) : 0 <= norm_cdf_R x <= 1.
Proof.
  unfold norm_cdf_R.
  pose proof gauss_mass_pos as Hm.
  pose proof (gauss_area_le_mass x) as H1.
  pose proof (gauss_area_le_mass (- x)) as H2. rewrite gauss_area_odd in H2.
  assert (H3 : -1 <= gauss_area x / gauss_mass <= 1).
  { split.
    - apply Rmult_le_reg_r with gauss_mass; [lra |].
      unfold Rdiv. rewrite Rmult_assoc, Rinv_l by lra. lra.
    - apply Rmult_le_reg_r with gauss_mass; [lra |].
      unfold Rdiv. rewrite Rmult_assoc, Rinv_l by lra. lra. }
  lra.
Qed.

Lemma gauss_kernel_integral_nonneg (a b : R) :
  a <= b -> 0 <= RiemannInt (gauss_kernel_integrable a b).
Proof.
  intro Hab.
  apply Rle_trans with (RiemannInt (RiemannInt_P14 a b 0)).
  - rewrite RiemannInt_P15. lra.
  - apply RiemannInt_P19;
      [exact Hab | intros; unfold fct_cte, gauss_kernel; left; apply exp_pos].
Qed.

Lemma gauss_area_monotone (x y : R) : x <= y -> gauss_area x <= gauss_area y.
Proof.
  intro Hxy. unfold gauss_area.
  rewrite <- (RiemannInt_P26 (gauss_kernel_integrable (- y) (- x))
                (gauss_kernel_integrable (- x) y)
                (gauss_kernel_integrable (- y) y)).
  rewrite <- (RiemannInt_P26 (gauss_kernel_integrable (- x) x)
                (gauss_kernel_integrable x y)
                (gauss_kernel_integrable (- x) y)).
  pose proof (gauss_kernel_integral_nonneg (- y) (- x) ltac:(lra)).
  pose proof (gauss_kernel_integral_nonneg x y Hxy).
  lra.
Qed.

Lemma norm_cdf_R_monotone (x y : R) : x <= y -> norm_cdf_R x <= norm_cdf_R y.
Proof.
  intro Hxy. unfold norm_cdf_R.
  pose proof gauss_mass_pos as Hm.
  pose proof (gauss_area_monotone x y Hxy) as Ha.
  assert (H : gauss_area x / gauss_mass <= gauss_area y / gauss_mass).
  { unfold Rdiv. apply Rmult_le_compat_r; [| exact Ha].
    left. now apply Rinv_0_lt_compat. }
  lra.
Qed.

Lemma norm_cdf_R_zero : norm_cdf_R 0 = 1 / 2.
Proof.
  unfold norm_cdf_R.
  pose proof (gauss_area_odd 0) as H. rewrite Ropp_0 in H.
  replace (gauss_area 0) with 0 by lra. unfold Rdiv. rewrite Rmult_0_l. lra.
Qed.

(** The total mass is one: the distribution function comes as close to 1
    as one likes. *)
Lemma norm_cdf_R_sup (eps : R) : 0 < eps -> exists x, 1 - eps < norm_cdf_R x.
Proof.
  intro Heps. pose proof gauss_mass_pos as Hm.
  assert (Hlub : is_lub gauss_areas gauss_mass).
  { unfold gauss_mass.
    destruct (completeness gauss_areas gauss_areas_bound gauss_areas_inhabited)
      as [m Hm']. exact Hm'. }
  destruct (classic (exists x, gauss_mass - 2 * eps * gauss_mass < gauss_area x))
    as [[x Hx] | Hno].
  - exists x. unfold norm_cdf_R.
    assert (H : 1 - 2 * eps < gauss_area x / gauss_mass).
    { apply Rmult_lt_reg_r with gauss_mass; [lra |].
      unfold Rdiv. rewrite Rmult_assoc, Rinv_l by lra. lra. }
    lra.
  - exfalso.
    assert (Hub : is_upper_bound gauss_areas (gauss_mass - 2 * eps * gauss_mass)).
    { intros y [x Hy]. rewrite Hy.
      destruct (Rle_dec (gauss_area x) (gauss_mass - 2 * eps * gauss_mass))
        as [Hle | Hgt]; [exact Hle |].
      exfalso. apply Hno. exists x. lra. }
    pose proof (proj2 Hlub _ Hub). nra.
Qed.


(** Reduction of the operations that are total on finite doubles, leaving
    the ones with a domain ([fdiv], [math_log], ...) to rewriting. *)
Ltac fsimpl :=
  cbn [bind read_local fadd fsub fmul fneg fpow2 fabs fexp np_exp math_exp
       np_div norm_cdf norm_pdf signed_inf fst snd delta gamma theta vega rho].

(** ** The analytic functions on regular finite inputs *)

Lemma valid_regular (S K T sigma : R) :
  0 < S -> 0 < K -> 0 < T -> 0 < sigma -> regular S K T sigma.
Proof.
  intros HS HK HT Hs. repeat split; try lra.
  - apply Rdiv_lt_0_compat; assumption.
  - pose proof (sqrt_lt_R0 T HT). nra.
Qed.

Lemma regular_sqrt (S K T sigma : R) : regular S K T sigma -> sqrt T <> 0.
Proof. intros (_ & _ & _ & H) Hz. apply H. rewrite Hz. ring. Qed.

Lemma regular_S (S K T sigma : R) : regular S K T sigma -> S <> 0.
Proof.
  intros (_ & H & _) Hz. rewrite Hz in H. unfold Rdiv in H.
  rewrite Rmult_0_l in H. lra.
Qed.

Lemma d_1_Fin (S K T r sigma q : R) :
  regular S K T sigma ->
  d_1 (Fin S) (Fin K) (Fin T) (Fin r) (Fin sigma) (Fin q)
  = Ok (Fin (d1_R S K T r sigma q)).
Proof.
  intros (HK & HSK & HT & Hden). unfold d_1.
  rewrite py_div_Fin by assumption. fsimpl.
  rewrite math_log_Fin by assumption. fsimpl.
  rewrite math_sqrt_Fin by assumption. fsimpl.
  rewrite py_div_Fin by assumption. reflexivity.
Qed.

Lemma d_2_Fin (S K T r sigma q : R) :
  regular S K T sigma ->
  d_2 (Fin S) (Fin K) (Fin T) (Fin r) (Fin sigma) (Fin q)
  = Ok (Fin (d2_R S K T r sigma q)).
Proof.
  intros H. unfold d_2. rewrite d_1_Fin by assumption. fsimpl.
  destruct H as (HK & HSK & HT & Hden).
  rewrite math_sqrt_Fin by assumption. reflexivity.
Qed.

Lemma bs_pricing_Fin (S K T r sigma q : R) (kind : string) :
  regular S K T sigma ->
  is_call kind = true \/ is_put kind = true ->
  bs_pricing (Fin S) (Fin K) (Fin T) (Fin r) (Fin sigma) kind (Fin q)
  = Ok (Fin (price_R kind S K T r sigma q)).
Proof.
  intros (HK & HSK & HT & Hden) Hkind. unfold bs_pricing, price_R.
  rewrite py_div_Fin by assumption. fsimpl.
  rewrite np_log_Fin by assumption.
  rewrite np_sqrt_Fin by assumption. fsimpl.
  rewrite fdiv_Fin by assumption.
  destruct Hkind as [Hc | Hp].
  - rewrite Hc. reflexivity.
  - rewrite (is_put_not_call _ Hp), Hp. reflexivity.
Qed.

Lemma bs_greeks_Fin (S K T r sigma q : R) (kind : string) :
  regular S K T sigma ->
  is_call kind = true \/ is_put kind = true ->
  bs_greeks (Fin S) (Fin K) (Fin T) (Fin r) (Fin sigma) kind (Fin q)
  = Ok (mkGreeks (Fin (delta_R kind S K T r sigma q))
                 (Fin (gamma_R S K T r sigma q))
                 (Fin (theta_R kind S K T r sigma q))
                 (Fin (vega_R S K T r sigma q))
                 (Fin (rho_R kind S K T r sigma q))).
Proof.
  intros Hreg Hkind. unfold bs_greeks.
  pose proof (regular_sqrt _ _ _ _ Hreg) as Hsq.
  pose proof (regular_S _ _ _ _ Hreg) as HS.
  assert (HT : 0 <= T) by apply Hreg.
  assert (Hden : sigma * sqrt T <> 0) by apply Hreg.
  assert (Hg : S * sigma * sqrt T <> 0).
  { rewrite Rmult_assoc. apply Rmult_integral_contrapositive_currified; assumption. }
  assert (H2 : 2 * sqrt T <> 0) by lra.
  assert (H100 : 100 <> 0) by lra.
  unfold delta_R, theta_R, rho_R.
  destruct Hkind as [Hc | Hp].
  - rewrite Hc.
    rewrite d_1_Fin, d_2_Fin by assumption. fsimpl.
    rewrite math_sqrt_Fin by assumption. fsimpl.
    rewrite !fdiv_Fin by assumption. reflexivity.
  - rewrite (is_put_not_call _ Hp), Hp.
    rewrite d_1_Fin, d_2_Fin by assumption. fsimpl.
    rewrite math_sqrt_Fin by assumption. fsimpl.
    rewrite !fdiv_Fin by assumption. reflexivity.
Qed.

(* ================================================================== *)
(** ** Put-call parity and delta parity *)

Lemma put_call_parity_R (S K T r sigma q : R) :
  call_price_R S K T r sigma q - put_price_R S K T r sigma q
  = S * exp (- q * T) - K * exp (- r * T).
Proof.
  unfold call_price_R, put_price_R. rewrite !norm_cdf_R_opp. ring.
Qed.

(** C2.  Put-call parity: with S, K, T and sigma positive, [bs_pricing]
    returns a finite price for a call and for a put on the same inputs, and
    the call price minus the put price is [S e^(-qT) - K e^(-rT)]. *)
Theorem bs_pricing_put_call_parity (S K T r sigma q : R) (call put : string) :
  0 < S -> 0 < K -> 0 < T -> 0 < sigma ->
  is_call call = true -> is_put put = true ->
  exists c p : R,
    bs_pricing (Fin S) (Fin K) (Fin T) (Fin r) (Fin sigma) call (Fin q) = Ok (Fin c)
    /\ bs_pricing (Fin S) (Fin K) (Fin T) (Fin r) (Fin sigma) put (Fin q) = Ok (Fin p)
    /\ c - p = S * exp (- q * T) - K * exp (- r * T).
Proof.
  intros HS HK HT Hs Hc Hp.
  pose proof (valid_regular S K T sigma HS HK HT Hs) as Hreg.
  exists (price_R call S K T r sigma q), (price_R put S K T r sigma q).
  repeat split.
  - apply bs_pricing_Fin; auto.
  - apply bs_pricing_Fin; auto.
  - unfold price_R. rewrite Hc, (is_put_not_call _ Hp).
    apply put_call_parity_R.
Qed.

Lemma bs_pricing_put_call_parity_witness :
  exists c p : R,
    bs_pricing (Fin 100) (Fin 100) (Fin 1) (Fin 0.05) (Fin 0.2) "call" (Fin 0)
    = Ok (Fin c)
    /\ bs_pricing (Fin 100) (Fin 100) (Fin 1) (Fin 0.05) (Fin 0.2) "PUT" (Fin 0)
       = Ok (Fin p)
    /\ c - p = 100 * exp (- 0 * 1) - 100 * exp (- (0.05) * 1).
Proof.
  apply (bs_pricing_put_call_parity 100 100 1 0.05 0.2 0 "call" "PUT");
    try lra; reflexivity.
Defined.

(** C8.  Delta parity: with S, K, T and sigma positive, [bs_greeks] returns
    the Greeks of a call and of a put on the same inputs, and the call delta
    minus the put delta is exactly [e^(-qT)]. *)
Theorem bs_greeks_delta_parity (S K T r sigma q : R) (call put : string) :
  0 < S -> 0 < K -> 0 < T -> 0 < sigma ->
  is_call call = true -> is_put put = true ->
  exists (gc gp : greeks) (dc dp : R),
    bs_greeks (Fin S) (Fin K) (Fin T) (Fin r) (Fin sigma) call (Fin q) = Ok gc
    /\ bs_greeks (Fin S) (Fin K) (Fin T) (Fin r) (Fin sigma) put (Fin q) = Ok gp
    /\ delta gc = Fin dc /\ delta gp = Fin dp
    /\ dc - dp = exp (- q * T).
Proof.
  intros HS HK HT Hs Hc Hp.
  pose proof (valid_regular S K T sigma HS HK HT Hs) as Hreg.
  eexists _, _, (delta_R call S K T r sigma q), (delta_R put S K T r sigma q).
  split; [apply bs_greeks_Fin; auto |].
  split; [apply bs_greeks_Fin; auto |].
  split; [reflexivity |]. split; [reflexivity |].
  unfold delta_R. rewrite Hc, (is_put_not_call _ Hp). ring.
Qed.

Lemma bs_greeks_delta_parity_witness :
  exists (gc gp : greeks) (dc dp : R),
    bs_greeks (Fin 100) (Fin 115) (Fin 0.5) (Fin 0.05) (Fin 0.2) "call" (Fin 0)
    = Ok gc
    /\ bs_greeks (Fin 100) (Fin 115) (Fin 0.5) (Fin 0.05) (Fin 0.2) "put" (Fin 0)
       = Ok gp
    /\ delta gc = Fin dc /\ delta gp = Fin dp
    /\ dc - dp = exp (- 0 * 0.5).
Proof.
  apply (bs_greeks_delta_parity 100 115 0.5 0.05 0.2 0 "call" "put");
    try lra; reflexivity.
Defined.

(* ================================================================== *)
(** ** Degenerate volatility or expiry: [sigma = 0] or [T = 0] *)









Lemma ordinary_intro (x : R) :
  x = 0 \/ 1e-100 <= x <= 1e100 \/ - 1e100 <= x <= - 1e-100 -> ordinary x.
Proof.
  intros [H | [H | H]]; [now left | right | right].
  - rewrite Rabs_right; lra.
  - rewrite Rabs_left; lra.
Qed.


(* ================================================================== *)
(** ** An option kind that is neither a call nor a put *)

Lemma d_1_sqrt (S K T r sigma q d1 : float64) :
  d_1 S K T r sigma q = Ok d1 -> exists sq, math_sqrt T = Ok sq.
Proof.
  unfold d_1. intro H.
  destruct (py_div S K) as [SK |]; [| discriminate]. cbn [bind] in H.
  destruct (math_log SK) as [lg |]; [| discriminate]. cbn [bind] in H.
  destruct (math_sqrt T) as [sq |]; [| discriminate].
  now exists sq.
Qed.

Lemma bs_pricing_unknown_kind (S K T r sigma q : float64) (kind : string) :
  is_call kind = false -> is_put kind = false ->
  bs_pricing S K T r sigma kind q
  = (_ <- py_div S K ;; Raise UnboundLocalError)%result.
Proof.
  intros Hc Hp. unfold bs_pricing. rewrite Hc, Hp. reflexivity.
Qed.

Lemma bs_greeks_unknown_kind (S K T r sigma q : float64) (kind : string) :
  is_call kind = false -> is_put kind = false ->
  bs_greeks S K T r sigma kind q
  = (_ <- d_1 S K T r sigma q ;; Raise UnboundLocalError)%result.
Proof.
  intros Hc Hp. unfold bs_greeks. rewrite Hc, Hp. cbn [bind].
  destruct (d_1 S K T r sigma q) as [d1 |] eqn:Hd1; [| reflexivity].
  destruct (d_1_sqrt _ _ _ _ _ _ _ Hd1) as [sq Hsq].
  cbn [bind]. rewrite Hsq. reflexivity.
Qed.

Lemma mc_pricing_unknown_kind (S K T r sigma q : float64) (kind : string)
    (n : Z) (g : rng) :
  is_call kind = false -> is_put kind = false ->
  mc_pricing S K T r sigma kind n q g
  = (_ <- standard_normal n g ;; Raise UnboundLocalError)%result.
Proof.
  intros Hc Hp. unfold mc_pricing. rewrite Hc, Hp.
  destruct (standard_normal n g) as [[Zs g'] |]; reflexivity.
Qed.

Lemma mc_greeks_unknown_kind (S K T r sigma h dt q : float64) (kind : string)
    (n : Z) (g : rng) :
  is_call kind = false -> is_put kind = false ->
  mc_greeks S K T r sigma kind n h dt q g
  = (_ <- standard_normal n g ;; Raise UnboundLocalError)%result.
Proof.
  intros Hc Hp. unfold mc_greeks, payoff_of. rewrite Hc, Hp.
  destruct (standard_normal n g) as [[Zs g'] |]; reflexivity.
Qed.

(** C5, the input that refutes it: for the kind "straddle" [bs_pricing]
    falls through both branches and fails on reading the unassigned
    [bs_price], with UnboundLocalError, which is not an invalid-argument
    error. *)
Lemma unknown_kind_counterexample :
  bs_pricing (Fin 100) (Fin 100) (Fin 1) (Fin 0.05) (Fin 0.2) "straddle" (Fin 0)
  = Raise UnboundLocalError
  /\ is_invalid_argument UnboundLocalError = false.
Proof.
  split; [| reflexivity].
  rewrite bs_pricing_unknown_kind by reflexivity.
  rewrite py_div_Fin by lra. reflexivity.
Qed.

(** C5, as the code has it.  For a kind that is neither a variant of "call"
    nor of "put", no pricing operation checks the kind: each one falls
    through its [if] / [elif] and fails with UnboundLocalError where the
    unassigned result is first read, unless an earlier step has already
    raised ([S/K] in [bs_pricing], [d_1] in [bs_greeks], the draw of the
    sample in [mc_pricing] and [mc_greeks]).  None returns a value. *)
Theorem unknown_kind_raises (S K T r sigma h dt q : float64) (kind : string)
    (n : Z) (g : rng) :
  is_call kind = false -> is_put kind = false ->
  (bs_pricing S K T r sigma kind q
   = (_ <- py_div S K ;; Raise UnboundLocalError)%result
   /\ bs_greeks S K T r sigma kind q
      = (_ <- d_1 S K T r sigma q ;; Raise UnboundLocalError)%result
   /\ mc_pricing S K T r sigma kind n q g
      = (_ <- standard_normal n g ;; Raise UnboundLocalError)%result
   /\ mc_greeks S K T r sigma kind n h dt q g
      = (_ <- standard_normal n g ;; Raise UnboundLocalError)%result)
  /\ (forall v, bs_pricing S K T r sigma kind q <> Ok v)
  /\ (forall v, bs_greeks S K T r sigma kind q <> Ok v)
  /\ (forall v, mc_pricing S K T r sigma kind n q g <> Ok v)
  /\ (forall v, mc_greeks S K T r sigma kind n h dt q g <> Ok v).
Proof.
  intros Hc Hp.
  rewrite (bs_pricing_unknown_kind S K T r sigma q kind Hc Hp).
  rewrite (bs_greeks_unknown_kind S K T r sigma q kind Hc Hp).
  rewrite (mc_pricing_unknown_kind S K T r sigma q kind n g Hc Hp).
  rewrite (mc_greeks_unknown_kind S K T r sigma h dt q kind n g Hc Hp).
  repeat split; intros v.
  - destruct (py_div S K); discriminate.
  - destruct (d_1 S K T r sigma q); discriminate.
  - destruct (standard_normal n g); discriminate.
  - destruct (standard_normal n g); discriminate.
Qed.

Lemma unknown_kind_raises_witness :
  bs_greeks (Fin 100) (Fin 115) (Fin 0.5) (Fin 0.05) (Fin 0.2) "Straddle" (Fin 0)
  = Raise UnboundLocalError
  /\ mc_pricing (Fin 100) (Fin 115) (Fin 0.5) (Fin 0.05) (Fin 0.2) "Straddle"
       10 (Fin 0) (fun _ => 0)
     = Raise UnboundLocalError.
Proof.
  destruct (unknown_kind_raises (Fin 100) (Fin 115) (Fin 0.5) (Fin 0.05)
              (Fin 0.2) (Fin 0.01) (Fin 0.01) (Fin 0) "Straddle" 10 (fun _ => 0)
              eq_refl eq_refl) as ((_ & H2 & H3 & _) & _).
  split.
  - rewrite H2, d_1_Fin; [reflexivity |].
    apply valid_regular; lra.
  - rewrite H3. reflexivity.
Defined.

(* ================================================================== *)
(** ** Numeric inputs outside the OptionSpec *)

Lemma bs_pricing_returns (S K T r sigma q SK : float64) (kind : string) :
  is_call kind = true \/ is_put kind = true ->
  py_div S K = Ok SK ->
  exists v, bs_pricing S K T r sigma kind q = Ok v.
Proof.
  intros Hkind HSK. unfold bs_pricing. rewrite HSK. cbn [bind].
  destruct Hkind as [Hc | Hp].
  - rewrite Hc. eexists. reflexivity.
  - rewrite (is_put_not_call _ Hp), Hp. eexists. reflexivity.
Qed.

Lemma standard_normal_returns (n : Z) (g : rng) :
  (0 <= n)%Z ->
  standard_normal n g = Ok (rng_take (Z.to_nat n) g, rng_skip (Z.to_nat n) g).
Proof.
  intro H. unfold standard_normal.
  destruct (Z.ltb_spec n 0); [lia | reflexivity].
Qed.

Lemma payoff_of_assigned (kind : string) (K : float64) (prices : list float64) :
  is_call kind = true \/ is_put kind = true ->
  exists payoff, payoff_of kind K prices = Some payoff.
Proof.
  intros [Hc | Hp]; unfold payoff_of.
  - rewrite Hc. eexists. reflexivity.
  - rewrite (is_put_not_call _ Hp), Hp. eexists. reflexivity.
Qed.

Lemma mc_pricing_returns (S K T r sigma q : float64) (kind : string)
    (n : Z) (g : rng) :
  is_call kind = true \/ is_put kind = true ->
  (0 <= n)%Z ->
  exists v, mc_pricing S K T r sigma kind n q g = Ok (v, rng_skip (Z.to_nat n) g).
Proof.
  intros Hkind Hn. unfold mc_pricing.
  rewrite standard_normal_returns by assumption. cbn [bind].
  destruct Hkind as [Hc | Hp].
  - rewrite Hc. eexists. reflexivity.
  - rewrite (is_put_not_call _ Hp), Hp. eexists. reflexivity.
Qed.

Lemma mc_greeks_returns (S K T r sigma h dt q : float64) (kind : string)
    (n : Z) (g : rng) :
  is_call kind = true \/ is_put kind = true ->
  (0 <= n)%Z ->
  exists v, mc_greeks S K T r sigma kind n h dt q g
            = Ok (v, rng_skip (Z.to_nat n) g).
Proof.
  intros Hkind Hn. unfold mc_greeks.
  rewrite standard_normal_returns by assumption. cbn [bind].
  destruct (payoff_of_assigned kind K
              (map (fun z => (S * np_exp ((r - q - Fin 0.5 * fpow2 sigma) * T
                                          + sigma * np_sqrt T * z))%f64)
                   (rng_take (Z.to_nat n) g)) Hkind) as [p0 ->].
  cbn [read_local bind].
  match goal with
  | |- context [payoff_of kind K ?l] =>
      destruct (payoff_of_assigned kind K l Hkind) as [p1 ->]
  end.
  cbn [read_local bind].
  match goal with
  | |- context [payoff_of kind K ?l] =>
      destruct (payoff_of_assigned kind K l Hkind) as [p2 ->]
  end.
  cbn [read_local bind].
  match goal with
  | |- context [payoff_of kind K ?l] =>
      destruct (payoff_of_assigned kind K l Hkind) as [p3 ->]
  end.
  cbn [read_local bind].
  destruct Hkind as [Hc | Hp].
  - rewrite Hc. eexists. reflexivity.
  - rewrite (is_put_not_call _ Hp), Hp. eexists. reflexivity.
Qed.

(** The four ways [d_1] rejects its arguments, in the order of evaluation. *)
Lemma d_1_zero_strike (S T r sigma q : float64) :
  d_1 S (Fin 0) T r sigma q = Raise ZeroDivisionError.
Proof. unfold d_1. rewrite py_div_zero. reflexivity. Qed.

Lemma d_1_moneyness (S K : R) (T r sigma q : float64) :
  K <> 0 -> S / K <= 0 ->
  d_1 (Fin S) (Fin K) T r sigma q = Raise ValueError.
Proof.
  intros HK HSK. unfold d_1. rewrite py_div_Fin by assumption. cbn [bind].
  rewrite math_log_nonpos by assumption. reflexivity.
Qed.

Lemma d_1_negative_expiry (S K T : R) (r sigma q : float64) :
  K <> 0 -> 0 < S / K -> T < 0 ->
  d_1 (Fin S) (Fin K) (Fin T) r sigma q = Raise ValueError.
Proof.
  intros HK HSK HT. unfold d_1. rewrite py_div_Fin by assumption. cbn [bind].
  rewrite math_log_Fin by assumption. cbn [bind].
  rewrite math_sqrt_neg by assumption. reflexivity.
Qed.

Lemma d_1_zero_denominator (S K T r sigma q : R) :
  K <> 0 -> 0 < S / K -> 0 <= T -> sigma * sqrt T = 0 ->
  d_1 (Fin S) (Fin K) (Fin T) (Fin r) (Fin sigma) (Fin q)
  = Raise ZeroDivisionError.
Proof.
  intros HK HSK HT Hden. unfold d_1. rewrite py_div_Fin by assumption. fsimpl.
  rewrite math_log_Fin by assumption. fsimpl.
  rewrite math_sqrt_Fin by assumption. fsimpl.
  rewrite Hden. apply py_div_zero.
Qed.

Lemma bs_greeks_d_1_raises (S K T r sigma q : float64) (kind : string) (e : exn) :
  d_1 S K T r sigma q = Raise e ->
  bs_greeks S K T r sigma kind q = Raise e.
Proof.
  intro H. unfold bs_greeks.
  destruct (is_call kind); [rewrite H; reflexivity |].
  destruct (is_put kind); rewrite H; reflexivity.
Qed.

(** The first Newton iteration of [implied_volatility] runs [bs_pricing] and
    then [bs_greeks] at [sigma = 0.3]; what they raise, it raises. *)
Lemma implied_volatility_first_raises
    (market S K T r tol q v : float64) (kind : string) (max_iter : Z) (e : exn) :
  (0 < max_iter)%Z ->
  bs_pricing S K T r (Fin 0.3) kind q = Ok v ->
  bs_greeks S K T r (Fin 0.3) kind q = Raise e ->
  implied_volatility market S K T r kind tol max_iter q = Raise e.
Proof.
  intros Hn Hp Hg. unfold implied_volatility.
  destruct (Z.to_nat max_iter) as [| k] eqn:Hk; [lia |].
  cbn [for_range]. unfold newton_body at 1. rewrite Hp, Hg. reflexivity.
Qed.

Lemma implied_volatility_zero_strike
    (market S T r tol q : float64) (kind : string) (max_iter : Z) :
  (0 < max_iter)%Z ->
  implied_volatility market S (Fin 0) T r kind tol max_iter q
  = Raise ZeroDivisionError.
Proof.
  intros Hn. unfold implied_volatility.
  destruct (Z.to_nat max_iter) as [| k] eqn:Hk; [lia |].
  cbn [for_range]. unfold newton_body at 1, bs_pricing at 1.
  rewrite py_div_zero. reflexivity.
Qed.

(** C6, the inputs that refute it: with a negative spot [bs_pricing]
    returns [nan], and with a negative volatility it returns a finite
    price; neither input is rejected. *)
Lemma invalid_input_counterexample :
  bs_pricing (Fin (-100)) (Fin 100) (Fin 1) (Fin 0.05) (Fin 0.2) "call" (Fin 0)
  = Ok NaN
  /\ bs_pricing (Fin 100) (Fin 100) (Fin 1) (Fin 0.05) (Fin (-0.2)) "call" (Fin 0)
     = Ok (Fin (call_price_R 100 100 1 0.05 (-0.2) 0)).
Proof.
  split.
  - unfold bs_pricing. rewrite py_div_Fin by lra. cbn [bind].
    unfold np_log. rewrite Rsign_neg by lra. reflexivity.
  - apply (bs_pricing_Fin 100 100 1 0.05 (-0.2) 0 "call"); [| left; reflexivity].
    repeat split; try lra. rewrite sqrt_1. lra.
Qed.

(** C6, as the code has it.  No operation validates S, K, T or sigma at its
    boundary.  The inputs are of ordinary magnitude: S, K, T, sigma and the
    bump h are zero or between 1e-100 and 1e100 in absolute value, and
    [-q T] and [-r T] are at most 700, so that neither [**] nor [math.exp]
    raises OverflowError and no quotient or product underflows to zero.
    For a call or a put, on such inputs: [bs_pricing] raises only for
    [K = 0] (ZeroDivisionError from [S/K]) and returns a value otherwise;
    [mc_pricing] and [mc_greeks] return a value; [bs_greeks] and, from its
    first Newton iteration, [implied_volatility] raise what [d_1] raises:
    ZeroDivisionError for [K = 0] and for [sigma * sqrt T = 0], ValueError
    (a math domain error) for [S/K <= 0] and for [T < 0]; a negative sigma
    with [T > 0] is accepted. *)
Theorem numeric_input_not_validated
    (market S K T r sigma tol h dt q : R) (kind : string) (n max_iter : Z)
    (g : rng) :
  is_call kind = true \/ is_put kind = true ->
  (0 <= n)%Z -> (0 < max_iter)%Z ->
  ordinary S -> ordinary K -> ordinary T -> ordinary sigma -> ordinary h ->
  exp_defined (- q * T) -> exp_defined (- r * T) ->
  (K = 0 ->
   bs_pricing (Fin S) (Fin K) (Fin T) (Fin r) (Fin sigma) kind (Fin q)
   = Raise ZeroDivisionError)
  /\ (K <> 0 ->
      exists v,
        bs_pricing (Fin S) (Fin K) (Fin T) (Fin r) (Fin sigma) kind (Fin q) = Ok v)
  /\ (exists v g',
        mc_pricing (Fin S) (Fin K) (Fin T) (Fin r) (Fin sigma) kind n (Fin q) g
        = Ok (v, g'))
  /\ (exists v g',
        mc_greeks (Fin S) (Fin K) (Fin T) (Fin r) (Fin sigma) kind n (Fin h)
          (Fin dt) (Fin q) g
        = Ok (v, g'))
  /\ (K = 0 ->
      bs_greeks (Fin S) (Fin K) (Fin T) (Fin r) (Fin sigma) kind (Fin q)
      = Raise ZeroDivisionError)
  /\ (K <> 0 -> S / K <= 0 ->
      bs_greeks (Fin S) (Fin K) (Fin T) (Fin r) (Fin sigma) kind (Fin q)
      = Raise ValueError)
  /\ (K <> 0 -> 0 < S / K -> T < 0 ->
      bs_greeks (Fin S) (Fin K) (Fin T) (Fin r) (Fin sigma) kind (Fin q)
      = Raise ValueError)
  /\ (K <> 0 -> 0 < S / K -> 0 <= T -> sigma * sqrt T = 0 ->
      bs_greeks (Fin S) (Fin K) (Fin T) (Fin r) (Fin sigma) kind (Fin q)
      = Raise ZeroDivisionError)
  /\ (K <> 0 -> 0 < S / K -> 0 <= T -> sigma * sqrt T <> 0 ->
      exists v,
        bs_greeks (Fin S) (Fin K) (Fin T) (Fin r) (Fin sigma) kind (Fin q) = Ok v)
  /\ (K = 0 ->
      implied_volatility (Fin market) (Fin S) (Fin K) (Fin T) (Fin r) kind
        (Fin tol) max_iter (Fin q)
      = Raise ZeroDivisionError)
  /\ (K <> 0 -> S / K <= 0 ->
      implied_volatility (Fin market) (Fin S) (Fin K) (Fin T) (Fin r) kind
        (Fin tol) max_iter (Fin q)
      = Raise ValueError)
  /\ (K <> 0 -> 0 < S / K -> T < 0 ->
      implied_volatility (Fin market) (Fin S) (Fin K) (Fin T) (Fin r) kind
        (Fin tol) max_iter (Fin q)
      = Raise ValueError)
  /\ (K <> 0 -> 0 < S / K -> T = 0 ->
      implied_volatility (Fin market) (Fin S) (Fin K) (Fin T) (Fin r) kind
        (Fin tol) max_iter (Fin q)
      = Raise ZeroDivisionError).
Proof.
  intros Hkind Hn Hmax _ _ _ _ _ _ _.
  assert (Hbs : forall sg, K <> 0 ->
            exists v,
              bs_pricing (Fin S) (Fin K) (Fin T) (Fin r) sg kind (Fin q) = Ok v).
  { intros sg HK. apply bs_pricing_returns with (SK := Fin (S / K));
      [assumption | now apply py_div_Fin]. }
  assert (Hiv : forall e, K <> 0 ->
            bs_greeks (Fin S) (Fin K) (Fin T) (Fin r) (Fin 0.3) kind (Fin q)
            = Raise e ->
            implied_volatility (Fin market) (Fin S) (Fin K) (Fin T) (Fin r) kind
              (Fin tol) max_iter (Fin q) = Raise e).
  { intros e HK Hg. destruct (Hbs (Fin 0.3) HK) as [v Hv].
    now apply implied_volatility_first_raises with (v := v). }
  split.
  { intros ->. unfold bs_pricing. rewrite py_div_zero. reflexivity. }
  split; [apply Hbs |].
  split.
  { destruct (mc_pricing_returns (Fin S) (Fin K) (Fin T) (Fin r) (Fin sigma)
                (Fin q) kind n g Hkind Hn) as [v Hv]. eauto. }
  split.
  { destruct (mc_greeks_returns (Fin S) (Fin K) (Fin T) (Fin r) (Fin sigma)
                (Fin h) (Fin dt) (Fin q) kind n g Hkind Hn) as [v Hv]. eauto. }
  split.
  { intros ->. apply bs_greeks_d_1_raises, d_1_zero_strike. }
  split.
  { intros HK HSK. now apply bs_greeks_d_1_raises, d_1_moneyness. }
  split.
  { intros HK HSK HT. now apply bs_greeks_d_1_raises, d_1_negative_expiry. }
  split.
  { intros HK HSK HT Hden. now apply bs_greeks_d_1_raises, d_1_zero_denominator. }
  split.
  { intros HK HSK HT Hden. eexists. apply bs_greeks_Fin; [| assumption].
    repeat split; assumption. }
  split.
  { intros ->. now apply implied_volatility_zero_strike. }
  split.
  { intros HK HSK. apply Hiv; [assumption |].
    now apply bs_greeks_d_1_raises, d_1_moneyness. }
  split.
  { intros HK HSK HT. apply Hiv; [assumption |].
    now apply bs_greeks_d_1_raises, d_1_negative_expiry. }
  intros HK HSK ->. apply Hiv; [assumption |].
  apply bs_greeks_d_1_raises, d_1_zero_denominator; try assumption; try lra.
  rewrite sqrt_0. ring.
Qed.

Lemma numeric_input_not_validated_witness :
  (exists v,
     bs_pricing (Fin (-100)) (Fin 100) (Fin 1) (Fin 0.05) (Fin (-0.2)) "put" (Fin 0)
     = Ok v)
  /\ bs_greeks (Fin (-100)) (Fin 100) (Fin 1) (Fin 0.05) (Fin (-0.2)) "put" (Fin 0)
     = Raise ValueError.
Proof.
  destruct (numeric_input_not_validated 5 (-100) 100 1 0.05 (-0.2) 1e-4 0.01
              0.01 0 "put" 10 100 (fun _ => 0))
    as (_ & H2 & _ & _ & _ & H6 & _);
    try lia; try (apply ordinary_intro; lra); try (unfold exp_defined; lra).
  - right; reflexivity.
  - split; [apply H2 | apply H6]; lra.
Defined.

(* ================================================================== *)
(** ** The Monte Carlo estimator *)

Lemma rng_take_draws (n : nat) (g : rng) : rng_take n g = map Fin (rng_draws n g).
Proof. unfold rng_take, rng_draws. now rewrite map_map. Qed.

Lemma np_sum_Fin (l : list R) (acc : R) :
  fold_left fadd (map Fin l) (Fin acc) = Fin (acc + fold_right Rplus 0 l).
Proof.
  revert acc. induction l as [| x l IH]; intro acc; cbn [map fold_left fold_right].
  - f_equal. ring.
  - cbn [fadd]. rewrite IH. f_equal. ring.
Qed.

Lemma np_mean_Fin (l : list R) :
  l <> [] -> np_mean (map Fin l) = Fin (mean_R l).
Proof.
  intro Hl. unfold np_mean, np_sum, np_div, mean_R.
  rewrite np_sum_Fin, length_map, fdiv_Fin.
  - f_equal. f_equal. ring.
  - destruct l as [| x l]; [congruence |].
    apply not_0_INR. cbn [List.length]. lia.
Qed.

Lemma terminal_price_Fin (S T r sigma q z : R) :
  0 <= T ->
  (Fin S * np_exp ((Fin r - Fin q - Fin 0.5 * fpow2 (Fin sigma)) * Fin T
                   + Fin sigma * np_sqrt (Fin T) * Fin z))%f64
  = Fin (terminal_price_R S T r sigma q z).
Proof.
  intro HT. rewrite np_sqrt_Fin by assumption. fsimpl.
  unfold terminal_price_R.
  apply (f_equal Fin), (f_equal (Rmult S)), (f_equal exp). lra.
Qed.

Lemma final_stock_price_Fin (S T r sigma q : R) (n : nat) (g : rng) :
  0 <= T ->
  map (fun z => (Fin S * np_exp ((Fin r - Fin q - Fin 0.5 * fpow2 (Fin sigma))
                                 * Fin T
                                 + Fin sigma * np_sqrt (Fin T) * z))%f64)
      (rng_take n g)
  = map Fin (map (terminal_price_R S T r sigma q) (rng_draws n g)).
Proof.
  intro HT. rewrite rng_take_draws, !map_map. apply map_ext.
  intro z. now apply terminal_price_Fin.
Qed.

Lemma payoff_call_Fin (K : R) (l : list R) :
  map (fun s => np_maximum (s - Fin K)%f64 (Fin 0)) (map Fin l)
  = map Fin (map (fun s => Rmax (s - K) 0) l).
Proof.
  rewrite !map_map. apply map_ext. intro s. fsimpl. apply np_maximum_Fin.
Qed.

Lemma payoff_put_Fin (K : R) (l : list R) :
  map (fun s => np_maximum (Fin K - s)%f64 (Fin 0)) (map Fin l)
  = map Fin (map (fun s => Rmax (K - s) 0) l).
Proof.
  rewrite !map_map. apply map_ext. intro s. fsimpl. apply np_maximum_Fin.
Qed.

(** C7.  For a call or a put with [T >= 0] and a path count [n > 0],
    [mc_pricing] returns [e^(-rT)] times the mean of the payoffs of the
    terminal prices [S exp((r - q - sigma^2/2) T + sigma sqrt(T) Z_i)],
    where [Z] are the [n] numbers drawn from the random source, and leaves
    the source advanced by [n] draws. *)
Theorem mc_pricing_estimator (S K T r sigma q : R) (kind : string) (n : Z)
    (g : rng) :
  is_call kind = true \/ is_put kind = true ->
  0 <= T -> (0 < n)%Z ->
  mc_pricing (Fin S) (Fin K) (Fin T) (Fin r) (Fin sigma) kind n (Fin q) g
  = Ok (Fin (exp (- r * T)
             * mean_R (map (fun z =>
                              payoff_R kind K
                                (S * exp ((r - q - / 2 * sigma ^ 2) * T
                                          + sigma * sqrt T * z)))
                           (rng_draws (Z.to_nat n) g))),
        rng_skip (Z.to_nat n) g).
Proof.
  intros Hkind HT Hn. unfold mc_pricing.
  rewrite standard_normal_returns by lia. cbn [bind].
  rewrite !(final_stock_price_Fin S T r sigma q _ g HT).
  assert (Hne : forall f : R -> R, map f (rng_draws (Z.to_nat n) g) <> []).
  { intros f H. apply (f_equal (@List.length R)) in H.
    unfold rng_draws in H. rewrite !length_map, length_seq in H.
    cbn [List.length] in H. lia. }
  unfold mc_estimate_R, payoff_R.
  destruct Hkind as [Hc | Hp].
  - rewrite Hc. cbn [read_local bind].
    rewrite payoff_call_Fin, !map_map, <- (map_map _ Fin), np_mean_Fin
      by apply Hne.
    reflexivity.
  - rewrite (is_put_not_call _ Hp), Hp. cbn [read_local bind].
    rewrite payoff_put_Fin, !map_map, <- (map_map _ Fin), np_mean_Fin
      by apply Hne.
    reflexivity.
Qed.

Lemma mc_pricing_estimator_witness :
  mc_pricing (Fin 100) (Fin 115) (Fin 0.5) (Fin 0.05) (Fin 0.2) "call" 3 (Fin 0)
    (fun i => INR i)
  = Ok (Fin (mc_estimate_R "call" 100 115 0.5 0.05 0.2 0
               (rng_draws (Z.to_nat 3) (fun i => INR i))),
        rng_skip (Z.to_nat 3) (fun i => INR i)).
Proof.
  apply (mc_pricing_estimator 100 115 0.5 0.05 0.2 0 "call" 3 (fun i => INR i));
    [left; reflexivity | lra | lia].
Defined.

(* ================================================================== *)
(** ** The convergence series *)

Lemma mc_convergence_loop_prices (S K T r sigma q : float64) (kind : string)
    (n_values : list Z) (acc : list float64) (g : rng) :
  is_call kind = true \/ is_put kind = true ->
  Forall (fun n => (0 <= n)%Z) n_values ->
  exists prices,
    mc_convergence_loop S K T r sigma kind q n_values acc g
    = Ok (acc ++ prices, rng_after n_values (List.length n_values) g)
    /\ List.length prices = List.length n_values
    /\ forall i n,
         nth_error n_values i = Some n ->
         exists p,
           nth_error prices i = Some p
           /\ mc_pricing S K T r sigma kind n q (rng_after n_values i g)
              = Ok (p, rng_after n_values (Datatypes.S i) g).
Proof.
  intros Hkind Hall. revert acc g.
  induction Hall as [| n rest Hn Hrest IH]; intros acc g.
  - exists []. cbn [mc_convergence_loop rng_after List.length].
    rewrite app_nil_r. repeat split.
    intros [| i] m H; discriminate.
  - destruct (mc_pricing_returns S K T r sigma q kind n g Hkind Hn) as [v Hv].
    destruct (IH (acc ++ [v]) (rng_skip (Z.to_nat n) g)) as (ps & Hloop & Hlen & Hnth).
    exists (v :: ps). cbn [mc_convergence_loop]. rewrite Hv. cbn [bind].
    rewrite Hloop, <- app_assoc. cbn [app rng_after List.length].
    repeat split.
    + now rewrite Hlen.
    + intros [| i] m Hm; cbn [nth_error] in Hm.
      * injection Hm as <-. exists v. split; [reflexivity |].
        cbn [rng_after]. destruct rest; exact Hv.
      * destruct (Hnth i m Hm) as (p & Hp & Hprice).
        exists p. split; [exact Hp | exact Hprice].
Qed.

(** C9, the input that refutes it: for the path counts [[10]] the returned
    list holds one float, the price, and no (path count, price) pair. *)
Lemma convergence_counterexample :
  exists p : float64,
    mc_convergence (Fin 100) (Fin 115) (Fin 0.5) (Fin 0.05) (Fin 0.2) "call"
      (Fin 0) [10%Z] (fun _ => 0)
    = Ok ([p], rng_skip 10 (fun _ => 0))
    /\ nth_error (returned_list [p]) 0 = Some (PyFloat p)
    /\ forall price : float64,
         nth_error (returned_list [p]) 0
         <> Some (PyTuple (PyInt 10) (PyFloat price)).
Proof.
  destruct (mc_pricing_returns (Fin 100) (Fin 115) (Fin 0.5) (Fin 0.05)
              (Fin 0.2) (Fin 0) "call" 10 (fun _ => 0))
    as [p Hp]; [left; reflexivity | lia |].
  exists p. split; [| split].
  - unfold mc_convergence. cbn [mc_convergence_loop].
    rewrite Hp. reflexivity.
  - reflexivity.
  - intros price H. discriminate H.
Qed.

(** C9, as the code has it.  For a call or a put and non-negative path
    counts, [mc_convergence] returns an ordered list of prices (floats, not
    pairs) with one entry per path count, in the order of the input: the
    [i]-th entry is the price [mc_pricing] returns at the [i]-th path count,
    run on the random source as the first [i] evaluations left it. *)
Theorem mc_convergence_prices (S K T r sigma q : float64) (kind : string)
    (n_values : list Z) (g : rng) :
  is_call kind = true \/ is_put kind = true ->
  Forall (fun n => (0 <= n)%Z) n_values ->
  exists prices,
    mc_convergence S K T r sigma kind q n_values g
    = Ok (prices, rng_after n_values (List.length n_values) g)
    /\ List.length prices = List.length n_values
    /\ forall i n,
         nth_error n_values i = Some n ->
         exists p,
           nth_error prices i = Some p
           /\ nth_error (returned_list prices) i = Some (PyFloat p)
           /\ mc_pricing S K T r sigma kind n q (rng_after n_values i g)
              = Ok (p, rng_after n_values (Datatypes.S i) g).
Proof.
  intros Hkind Hall.
  destruct (mc_convergence_loop_prices S K T r sigma q kind n_values [] g
              Hkind Hall) as (prices & Hloop & Hlen & Hnth).
  exists prices. split; [exact Hloop |]. split; [exact Hlen |].
  intros i n Hi. destruct (Hnth i n Hi) as (p & Hp & Hprice).
  exists p. repeat split; try assumption.
  unfold returned_list. now rewrite nth_error_map, Hp.
Qed.

Lemma mc_convergence_prices_witness :
  exists prices,
    mc_convergence (Fin 100) (Fin 115) (Fin 0.5) (Fin 0.05) (Fin 0.2) "call"
      (Fin 0) [10%Z; 100%Z] (fun _ => 0)
    = Ok (prices, rng_after [10%Z; 100%Z] 2 (fun _ => 0))
    /\ List.length prices = 2%nat.
Proof.
  destruct (mc_convergence_prices (Fin 100) (Fin 115) (Fin 0.5) (Fin 0.05)
              (Fin 0.2) (Fin 0) "call" [10%Z; 100%Z] (fun _ => 0))
    as (prices & H1 & H2 & _).
  - left; reflexivity.
  - repeat constructor; lia.
  - exists prices. split; assumption.
Defined.

(* ================================================================== *)
(** ** Loops *)

(** Safety: what holds of the state before a loop and is kept by every pass
    holds after it, and a returned value satisfies what the body ensures. *)
Lemma for_range_invariant {St Ret : Type} (Inv : St -> Prop) (Post : Ret -> Prop)
    (body : St -> result (flow St Ret)) :
  (forall s fl, Inv s -> body s = Ok fl ->
     match fl with
     | Continue s' | Break s' => Inv s'
     | Return v => Post v
     end) ->
  forall n s out, Inv s -> for_range n body s = Ok out ->
    match out with
    | inl s' => Inv s'
    | inr v => Post v
    end.
Proof.
  intros Hbody n. induction n as [| n IH]; intros s out Hs Hrun.
  - cbn [for_range] in Hrun. injection Hrun as <-. exact Hs.
  - cbn [for_range] in Hrun.
    destruct (body s) as [fl |] eqn:Hfl; [| discriminate].
    specialize (Hbody s fl Hs Hfl). cbn [bind] in Hrun.
    destruct fl as [s' | s' | v].
    + now apply (IH s').
    + injection Hrun as <-. exact Hbody.
    + injection Hrun as <-. exact Hbody.
Qed.

(** Progress: if moreover every pass from a state of the invariant ends
    without raising, so does the loop. *)
Lemma for_range_total {St Ret : Type} (Inv : St -> Prop) (Post : Ret -> Prop)
    (body : St -> result (flow St Ret)) :
  (forall s, Inv s ->
     exists fl, body s = Ok fl /\
       match fl with
       | Continue s' | Break s' => Inv s'
       | Return v => Post v
       end) ->
  forall n s, Inv s ->
    exists out, for_range n body s = Ok out /\
      match out with
      | inl s' => Inv s'
      | inr v => Post v
      end.
Proof.
  intros Hbody n. induction n as [| n IH]; intros s Hs.
  - exists (inl s). split; [reflexivity | exact Hs].
  - destruct (Hbody s Hs) as (fl & Hfl & Hpost).
    cbn [for_range]. rewrite Hfl. cbn [bind].
    destruct fl as [s' | s' | v].
    + now apply IH.
    + exists (inl s'). split; [reflexivity | exact Hpost].
    + exists (inr v). split; [reflexivity | exact Hpost].
Qed.

(* ================================================================== *)
(** ** The implied-volatility solver on valid inputs *)

Lemma one_point_zero : 1.0 = 1.
Proof. lra. Qed.

Lemma tolerance_price_Fin (tol market : R) :
  (Fin tol * py_max (Fin 1.0) (Fin market))%f64 = Fin (tol * Rmax 1 market).
Proof. rewrite py_max_Fin, one_point_zero. reflexivity. Qed.

Lemma clamp_Fin (x : R) :
  py_max (py_min (Fin x) (Fin 5.0)) (Fin 1e-6) = Fin (clamp x).
Proof. rewrite py_min_Fin, py_max_Fin. reflexivity. Qed.

(** One pass of the Newton-Raphson loop at a finite positive [sigma]. *)
Lemma newton_body_Fin (market S K T r tol q sigma : R) (kind : string) :
  0 < S -> 0 < K -> 0 < T -> 0 < sigma ->
  is_call kind = true \/ is_put kind = true ->
  newton_body (Fin market) (Fin S) (Fin K) (Fin T) (Fin r) kind (Fin tol)
    (Fin q) (Fin sigma)
  = Ok (if Rlt_dec (Rabs (price_R kind S K T r sigma q - market))
                   (tol * Rmax 1 market)
        then Return (Fin sigma)
        else if Rlt_dec (vega_R S K T r sigma q) 1e-8
             then Break (Fin sigma)
             else Continue
                    (Fin (clamp (sigma - (price_R kind S K T r sigma q - market)
                                         / vega_R S K T r sigma q)))).
Proof.
  intros HS HK HT Hs Hkind.
  pose proof (valid_regular S K T sigma HS HK HT Hs) as Hreg.
  unfold newton_body.
  rewrite bs_pricing_Fin, bs_greeks_Fin by assumption.
  cbn [bind vega]. rewrite tolerance_price_Fin. fsimpl.
  rewrite !fltb_Fin. fold (price_R kind S K T r sigma q - market).
  destruct (Rlt_dec (Rabs (price_R kind S K T r sigma q - market))
                    (tol * Rmax 1 market)); [reflexivity |].
  destruct (Rlt_dec (vega_R S K T r sigma q) 1e-8) as [Hv | Hv]; [reflexivity |].
  rewrite fdiv_Fin by lra. fsimpl. rewrite clamp_Fin. reflexivity.
Qed.

(** One pass of the bisection loop between finite positive bounds. *)
Lemma bisection_body_Fin (market S K T r tolp q low high : R) (kind : string) :
  0 < S -> 0 < K -> 0 < T -> 0 < low + high ->
  is_call kind = true \/ is_put kind = true ->
  bisection_body (Fin market) (Fin S) (Fin K) (Fin T) (Fin r) kind (Fin tolp)
    (Fin q) (Fin low, Fin high)
  = Ok (if Rlt_dec (Rabs (price_R kind S K T r ((low + high) / 2) q - market)) tolp
        then Return (Fin ((low + high) / 2))
        else if Rlt_dec market (price_R kind S K T r ((low + high) / 2) q)
             then Continue (Fin low, Fin ((low + high) / 2))
             else Continue (Fin ((low + high) / 2), Fin high)).
Proof.
  intros HS HK HT Hlh Hkind.
  assert (Hmid : 0 < (low + high) / 2) by lra.
  pose proof (valid_regular S K T _ HS HK HT Hmid) as Hreg.
  unfold bisection_body. fsimpl.
  rewrite fdiv_Fin by lra.
  rewrite bs_pricing_Fin by assumption.
  fsimpl. unfold fgtb. rewrite !fltb_Fin.
  fold (price_R kind S K T r ((low + high) / 2) q - market).
  destruct (Rlt_dec _ tolp); [reflexivity |].
  destruct (Rlt_dec market _); reflexivity.
Qed.

Lemma newton_loop_spec (market S K T r tol q : R) (kind : string) (iters : nat) :
  0 < S -> 0 < K -> 0 < T ->
  is_call kind = true \/ is_put kind = true ->
  forall sigma, 0 < sigma ->
    match newton_spec (fun s => price_R kind S K T r s q)
            (fun s => vega_R S K T r s q) market tol iters sigma with
    | Converged s =>
        for_range iters
          (newton_body (Fin market) (Fin S) (Fin K) (Fin T) (Fin r) kind
             (Fin tol) (Fin q)) (Fin sigma)
        = Ok (inr (Fin s))
    | FallThrough =>
        exists s',
          for_range iters
            (newton_body (Fin market) (Fin S) (Fin K) (Fin T) (Fin r) kind
               (Fin tol) (Fin q)) (Fin sigma)
          = Ok (inl s')
    end.
Proof.
  intros HS HK HT Hkind.
  induction iters as [| k IH]; intros sigma Hs.
  - cbn [newton_spec for_range]. now exists (Fin sigma).
  - cbn [newton_spec for_range].
    rewrite newton_body_Fin by assumption. cbn [bind].
    destruct (Rlt_dec (Rabs (price_R kind S K T r sigma q - market))
                      (tol * Rmax 1 market)); [reflexivity |].
    destruct (Rlt_dec (vega_R S K T r sigma q) 1e-8).
    + now exists (Fin sigma).
    + apply IH. pose proof (clamp_range
        (sigma - (price_R kind S K T r sigma q - market) / vega_R S K T r sigma q)).
      lra.
Qed.

(** A first iterate that already meets the tolerance is returned. *)
Lemma implied_volatility_converged_at_start (market S K T r tol q : R)
    (kind : string) (max_iter : Z) :
  0 < S -> 0 < K -> 0 < T ->
  is_call kind = true \/ is_put kind = true ->
  (0 < max_iter)%Z ->
  Rabs (price_R kind S K T r 0.3 q - market) < tol * Rmax 1 market ->
  implied_volatility (Fin market) (Fin S) (Fin K) (Fin T) (Fin r) kind
    (Fin tol) max_iter (Fin q)
  = Ok (Some (Fin 0.3)).
Proof.
  intros HS HK HT Hkind Hn Hconv.
  unfold implied_volatility.
  destruct (Z.to_nat max_iter) as [| k] eqn:Hk; [lia |].
  cbn [for_range]. rewrite newton_body_Fin by (assumption || lra).
  cbn [bind].
  destruct (Rlt_dec _ _) as [_ | Hno]; [reflexivity | contradiction].
Qed.

(** C3.  On a valid input (S, K, T positive, a call or a put), the Newton
    phase of [implied_volatility] is phase 1 of the specification: it starts
    at [sigma = 0.3] and, for at most [max_iter] iterations, returns the
    current sigma if [|price - market| < tolerance * max(1, market)],
    otherwise leaves for the bisection phase if [vega < 1e-8], otherwise
    replaces sigma by [sigma - (price - market) / vega] clamped into
    [[1e-6, 5.0]]; when the iterations are used up it goes on with the
    bisection phase as well. *)
Theorem implied_volatility_newton_phase (market S K T r tol q : R)
    (kind : string) (max_iter : Z) :
  0 < S -> 0 < K -> 0 < T ->
  is_call kind = true \/ is_put kind = true ->
  implied_volatility (Fin market) (Fin S) (Fin K) (Fin T) (Fin r) kind
    (Fin tol) max_iter (Fin q)
  = match newton_spec (fun s => price_R kind S K T r s q)
            (fun s => vega_R S K T r s q) market tol (Z.to_nat max_iter) 0.3 with
    | Converged sigma => Ok (Some (Fin sigma))
    | FallThrough =>
        bisection_phase (Fin market) (Fin S) (Fin K) (Fin T) (Fin r) kind
          (Fin tol) max_iter (Fin q)
    end
  /\ forall x, 1e-6 <= clamp x <= 5.0.
Proof.
  intros HS HK HT Hkind. split; [| apply clamp_range].
  unfold implied_volatility.
  pose proof (newton_loop_spec market S K T r tol q kind (Z.to_nat max_iter)
                HS HK HT Hkind 0.3 ltac:(lra)) as H.
  destruct (newton_spec _ _ market tol (Z.to_nat max_iter) 0.3) as [sigma |].
  - rewrite H. reflexivity.
  - destruct H as [s' ->]. reflexivity.
Qed.

Lemma implied_volatility_newton_phase_witness :
  implied_volatility (Fin 5) (Fin 100) (Fin 115) (Fin 0.5) (Fin 0.05) "call"
    (Fin 1e-4) 100 (Fin 0)
  = match newton_spec (fun s => price_R "call" 100 115 0.5 0.05 s 0)
            (fun s => vega_R 100 115 0.5 0.05 s 0) 5 1e-4 (Z.to_nat 100) 0.3 with
    | Converged sigma => Ok (Some (Fin sigma))
    | FallThrough =>
        bisection_phase (Fin 5) (Fin 100) (Fin 115) (Fin 0.5) (Fin 0.05) "call"
          (Fin 1e-4) 100 (Fin 0)
    end.
Proof.
  apply (implied_volatility_newton_phase 5 100 115 0.5 0.05 1e-4 0 "call" 100);
    try lra.
  left; reflexivity.
Defined.

(* ================================================================== *)
(** ** What [implied_volatility] returns on valid inputs *)

Lemma call_price_bounds (S K T r sigma q : R) :
  0 < S -> 0 < K ->
  - (K * exp (- r * T)) <= call_price_R S K T r sigma q <= S * exp (- q * T).
Proof.
  intros HS HK. unfold call_price_R.
  pose proof (norm_cdf_R_range (d1_R S K T r sigma q)) as H1.
  pose proof (norm_cdf_R_range (d2_R S K T r sigma q)) as H2.
  assert (Hq : 0 < S * exp (- q * T))
    by (apply Rmult_lt_0_compat; [assumption | apply exp_pos]).
  assert (Hr : 0 < K * exp (- r * T))
    by (apply Rmult_lt_0_compat; [assumption | apply exp_pos]).
  split; nra.
Qed.

Lemma newton_phase_total (market S K T r tol q : R) (kind : string) (iters : nat) :
  0 < S -> 0 < K -> 0 < T ->
  is_call kind = true \/ is_put kind = true ->
  exists out,
    for_range iters
      (newton_body (Fin market) (Fin S) (Fin K) (Fin T) (Fin r) kind (Fin tol)
         (Fin q)) (Fin 0.3)
    = Ok out
    /\ match out with
       | inl _ => True
       | inr v => meets_tolerance kind market S K T r tol q v
       end.
Proof.
  intros HS HK HT Hkind.
  destruct (for_range_total
              (fun s => exists x, s = Fin x /\ 1e-6 <= x <= 5.0)
              (meets_tolerance kind market S K T r tol q)
              (newton_body (Fin market) (Fin S) (Fin K) (Fin T) (Fin r) kind
                 (Fin tol) (Fin q))) with (n := iters) (s := Fin 0.3)
    as (out & Hout & Hpost).
  - intros s (x & -> & Hx).
    rewrite newton_body_Fin by (assumption || lra).
    eexists. split; [reflexivity |].
    destruct (Rlt_dec _ _) as [Hconv | _].
    + exists x. repeat split; (assumption || lra).
    + destruct (Rlt_dec _ _).
      * exists x. split; [reflexivity | assumption].
      * eexists. split; [reflexivity | apply clamp_range].
  - exists 0.3. split; [reflexivity | lra].
  - exists out. split; [exact Hout |]. destruct out; [exact I | exact Hpost].
Qed.

Lemma bisection_phase_total (market S K T r tol q : R) (kind : string)
    (max_iter : Z) :
  0 < S -> 0 < K -> 0 < T ->
  is_call kind = true \/ is_put kind = true ->
  bisection_phase (Fin market) (Fin S) (Fin K) (Fin T) (Fin r) kind (Fin tol)
    max_iter (Fin q) = Ok None
  \/ exists v,
       bisection_phase (Fin market) (Fin S) (Fin K) (Fin T) (Fin r) kind
         (Fin tol) max_iter (Fin q) = Ok (Some v)
       /\ meets_tolerance kind market S K T r tol q v.
Proof.
  intros HS HK HT Hkind. unfold bisection_phase.
  rewrite tolerance_price_Fin.
  destruct (for_range_total
              (fun st => exists l h, st = (Fin l, Fin h)
                                     /\ 1e-6 <= l /\ l <= h /\ h <= 5.0)
              (meets_tolerance kind market S K T r tol q)
              (bisection_body (Fin market) (Fin S) (Fin K) (Fin T) (Fin r) kind
                 (Fin (tol * Rmax 1 market)) (Fin q)))
    with (n := Z.to_nat max_iter) (s := (Fin 1e-6, Fin 5.0))
    as (out & Hout & Hpost).
  - intros st (l & h & -> & Hl & Hlh & Hh).
    rewrite bisection_body_Fin by (assumption || lra).
    eexists. split; [reflexivity |].
    destruct (Rlt_dec _ _) as [Hconv | _].
    + eexists. split; [reflexivity |]. split; [lra | exact Hconv].
    + destruct (Rlt_dec _ _).
      * exists l, ((l + h) / 2). repeat split; lra.
      * exists ((l + h) / 2), h. repeat split; lra.
  - exists 1e-6, 5.0. repeat split; lra.
  - rewrite Hout. cbn [bind]. destruct out as [st | v].
    + left. reflexivity.
    + right. exists v. split; [reflexivity | exact Hpost].
Qed.

(** On a valid input the solver does not raise: it returns [None], or a
    volatility of the search interval that meets the price tolerance. *)
Lemma implied_volatility_total (market S K T r tol q : R) (kind : string)
    (max_iter : Z) :
  0 < S -> 0 < K -> 0 < T ->
  is_call kind = true \/ is_put kind = true ->
  implied_volatility (Fin market) (Fin S) (Fin K) (Fin T) (Fin r) kind (Fin tol)
    max_iter (Fin q) = Ok None
  \/ exists v,
       implied_volatility (Fin market) (Fin S) (Fin K) (Fin T) (Fin r) kind
         (Fin tol) max_iter (Fin q) = Ok (Some v)
       /\ meets_tolerance kind market S K T r tol q v.
Proof.
  intros HS HK HT Hkind. unfold implied_volatility.
  destruct (newton_phase_total market S K T r tol q kind (Z.to_nat max_iter)
              HS HK HT Hkind) as (out & -> & Hpost).
  cbn [bind]. destruct out as [s | v].
  - now apply bisection_phase_total.
  - right. exists v. split; [reflexivity | exact Hpost].
Qed.

(** C4, the input that refutes it: a call quoted at 101 on a spot of 100 is
    above every model price, yet with [error_tolerance = 2] the first Newton
    iterate is within tolerance and 0.3 is returned. *)
Lemma price_above_spot_counterexample :
  implied_volatility (Fin 101) (Fin 100) (Fin 100) (Fin 1) (Fin 0.05) "call"
    (Fin 2) 100 (Fin 0)
  = Ok (Some (Fin 0.3)).
Proof.
  apply implied_volatility_converged_at_start; try lra; try lia.
  - left; reflexivity.
  - pose proof (call_price_bounds 100 100 1 0.05 0.3 0 ltac:(lra) ltac:(lra)) as Hb.
    replace (- 0 * 1) with 0 in Hb by ring. rewrite exp_0 in Hb.
    assert (He : exp (- (0.05) * 1) < 1).
    { apply Rlt_le_trans with (exp 0); [apply exp_increasing; lra |].
      rewrite exp_0. lra. }
    change (price_R "call" 100 100 1 0.05 0.3 0)
      with (call_price_R 100 100 1 0.05 0.3 0).
    rewrite Rmax_right by lra.
    apply Rabs_def1; lra.
Qed.

(** C4, as the code has it.  On a valid input the solver returns [None]
    unless some volatility of the search interval [[1e-6, 5.0]] reprices the
    option within the tolerance, and a volatility it returns does so.  In
    particular, for a call with [q >= 0] whose market price exceeds the spot
    by at least the tolerance, [error_tolerance * max(1, market_price) <=
    market_price - S], it returns [None]. *)
Theorem implied_volatility_not_found (market S K T r tol q : R)
    (kind : string) (max_iter : Z) :
  0 < S -> 0 < K -> 0 < T ->
  is_call kind = true \/ is_put kind = true ->
  (implied_volatility (Fin market) (Fin S) (Fin K) (Fin T) (Fin r) kind
     (Fin tol) max_iter (Fin q) = Ok None
   \/ exists v,
        implied_volatility (Fin market) (Fin S) (Fin K) (Fin T) (Fin r) kind
          (Fin tol) max_iter (Fin q) = Ok (Some v)
        /\ meets_tolerance kind market S K T r tol q v)
  /\ ((forall sigma, 1e-6 <= sigma <= 5.0 ->
         tol * Rmax 1 market <= Rabs (price_R kind S K T r sigma q - market)) ->
      implied_volatility (Fin market) (Fin S) (Fin K) (Fin T) (Fin r) kind
        (Fin tol) max_iter (Fin q) = Ok None)
  /\ (is_call kind = true -> 0 <= q ->
      tol * Rmax 1 market <= market - S ->
      implied_volatility (Fin market) (Fin S) (Fin K) (Fin T) (Fin r) kind
        (Fin tol) max_iter (Fin q) = Ok None).
Proof.
  intros HS HK HT Hkind.
  pose proof (implied_volatility_total market S K T r tol q kind max_iter
                HS HK HT Hkind) as Htotal.
  assert (Hnone :
            (forall sigma, 1e-6 <= sigma <= 5.0 ->
               tol * Rmax 1 market <= Rabs (price_R kind S K T r sigma q - market)) ->
            implied_volatility (Fin market) (Fin S) (Fin K) (Fin T) (Fin r) kind
              (Fin tol) max_iter (Fin q) = Ok None).
  { intro Hfar. destruct Htotal as [H | (v & _ & sigma & _ & Hrange & Hmeets)];
      [exact H |].
    specialize (Hfar sigma Hrange). lra. }
  split; [exact Htotal |]. split; [exact Hnone |].
  intros Hc Hq Hgap. apply Hnone. intros sigma Hsigma.
  unfold price_R. rewrite Hc.
  pose proof (call_price_bounds S K T r sigma q HS HK) as [_ Hub].
  assert (He : exp (- q * T) <= 1).
  { rewrite <- exp_0. destruct (Req_dec (- q * T) 0) as [-> | Hne];
      [lra | left; apply exp_increasing; nra]. }
  assert (HSe : S * exp (- q * T) <= S) by nra.
  apply Rle_trans with (market - call_price_R S K T r sigma q); [lra |].
  rewrite <- Rabs_Ropp.
  replace (- (call_price_R S K T r sigma q - market))
    with (market - call_price_R S K T r sigma q) by ring.
  apply Rle_abs.
Qed.

Lemma implied_volatility_not_found_witness :
  implied_volatility (Fin 200) (Fin 100) (Fin 100) (Fin 1) (Fin 0.05) "call"
    (Fin 1e-4) 100 (Fin 0)
  = Ok None.
Proof.
  destruct (implied_volatility_not_found 200 100 100 1 0.05 1e-4 0 "call" 100)
    as (_ & _ & H); try lra.
  - left; reflexivity.
  - apply H; [reflexivity | lra |].
    rewrite Rmax_right by lra. lra.
Defined.

(* ================================================================== *)
(** ** The range of the returned volatility, for arbitrary doubles *)

Lemma fadd_NaN_l (a : float64) : fadd NaN a = NaN.
Proof. destruct a; reflexivity. Qed.

Lemma fadd_NaN_r (a : float64) : fadd a NaN = NaN.
Proof. destruct a; reflexivity. Qed.

Lemma fmul_NaN_l (a : float64) : fmul NaN a = NaN.
Proof. destruct a; reflexivity. Qed.

Lemma fmul_NaN_r (a : float64) : fmul a NaN = NaN.
Proof. destruct a; reflexivity. Qed.

Lemma fdiv_NaN_l (a : float64) : fdiv NaN a = NaN.
Proof. destruct a; reflexivity. Qed.

Lemma fsub_NaN_l (a : float64) : fsub NaN a = NaN.
Proof. unfold fsub. apply fadd_NaN_l. Qed.

Lemma fsub_NaN_r (a : float64) : fsub a NaN = NaN.
Proof. unfold fsub. apply fadd_NaN_r. Qed.

(** A [nan] volatility gives a [nan] price. *)
Lemma bs_pricing_NaN (S K T r q v : float64) (kind : string) :
  bs_pricing S K T r NaN kind q = Ok v -> v = NaN.
Proof.
  unfold bs_pricing. destruct (py_div S K) as [SK |]; [| discriminate].
  cbn [bind]. unfold fpow2.
  rewrite !fmul_NaN_l, fmul_NaN_r, fadd_NaN_r, fmul_NaN_l, fadd_NaN_r,
    fdiv_NaN_l, fsub_NaN_l.
  cbn [fneg norm_cdf]. rewrite !fmul_NaN_r, fsub_NaN_l.
  destruct (is_call kind); [intro H; now injection H |].
  destruct (is_put kind); [intro H; now injection H | discriminate].
Qed.

(** The clamp of any double is [nan] or a number of [[1e-6, 5.0]]. *)
Lemma clamp_float (a : float64) :
  py_max (py_min a (Fin 5.0)) (Fin 1e-6) = NaN
  \/ searched (py_max (py_min a (Fin 5.0)) (Fin 1e-6)).
Proof.
  destruct a as [x | | |].
  - right. rewrite clamp_Fin. exists (clamp x). split; [reflexivity | apply clamp_range].
  - right. unfold py_min. cbn [fltb]. rewrite py_max_Fin.
    eexists. split; [reflexivity |]. unfold Rmax. destruct (Rle_dec _ _); lra.
  - right. unfold py_min, py_max, fgtb. cbn [fltb].
    eexists. split; [reflexivity | lra].
  - left. reflexivity.
Qed.

Lemma newton_body_range (market S K T r tol q s : float64) (kind : string)
    (fl : flow float64 float64) :
  s = NaN \/ searched s ->
  newton_body market S K T r kind tol q s = Ok fl ->
  match fl with
  | Continue s' | Break s' => s' = NaN \/ searched s'
  | Return v => searched v
  end.
Proof.
  intros Hs. unfold newton_body.
  destruct (bs_pricing S K T r s kind q) as [model_price |] eqn:Hprice;
    [| discriminate].
  destruct (bs_greeks S K T r s kind q) as [gr |]; [| discriminate].
  cbn [bind].
  destruct (fltb (fabs (model_price - market)%f64) _) eqn:Hconv.
  - intro H. injection H as <-.
    destruct Hs as [-> | Hs]; [| exact Hs].
    apply bs_pricing_NaN in Hprice. subst model_price.
    rewrite fsub_NaN_l in Hconv. discriminate Hconv.
  - destruct (fltb (vega gr) (Fin 1e-8)).
    + intro H. injection H as <-. exact Hs.
    + intro H. injection H as <-. apply clamp_float.
Qed.

Lemma bisection_body_range (market S K T r tolp q : float64) (kind : string)
    (st : float64 * float64) (fl : flow (float64 * float64) float64) :
  (exists l h, st = (Fin l, Fin h) /\ 1e-6 <= l /\ l < h /\ h <= 5.0) ->
  bisection_body market S K T r kind tolp q st = Ok fl ->
  match fl with
  | Continue st' | Break st' =>
      exists l h, st' = (Fin l, Fin h) /\ 1e-6 <= l /\ l < h /\ h <= 5.0
  | Return v => exists x, v = Fin x /\ 1e-6 < x < 5.0
  end.
Proof.
  intros (l & h & -> & Hl & Hlh & Hh). unfold bisection_body. fsimpl.
  rewrite fdiv_Fin by lra.
  destruct (bs_pricing S K T r (Fin ((l + h) / 2)) kind q) as [price |];
    [| discriminate].
  cbn [bind].
  destruct (fltb _ tolp).
  - intro H. injection H as <-. eexists. split; [reflexivity | lra].
  - destruct (fgtb price market); intro H; injection H as <-.
    + exists l, ((l + h) / 2). repeat split; lra.
    + exists ((l + h) / 2), h. repeat split; lra.
Qed.

(** C10.  Whatever the inputs, a volatility returned by
    [implied_volatility] is a finite number of the closed interval
    [[1e-6, 5.0]]: the Newton iterate is 0.3 or a clamped update, and a
    bisection midpoint lies strictly between the bounds. *)
Theorem implied_volatility_range (market S K T r tol q v : float64)
    (kind : string) (max_iter : Z) :
  implied_volatility market S K T r kind tol max_iter q = Ok (Some v) ->
  exists x, v = Fin x /\ 1e-6 <= x <= 5.0.
Proof.
  unfold implied_volatility.
  destruct (for_range (Z.to_nat max_iter)
              (newton_body market S K T r kind tol q) (Fin 0.3))
    as [newton |] eqn:Hnewton; [| discriminate].
  cbn [bind].
  pose proof (for_range_invariant
                (fun s => s = NaN \/ searched s) searched
                (newton_body market S K T r kind tol q)
                (fun s fl => newton_body_range market S K T r tol q s kind fl)
                (Z.to_nat max_iter) (Fin 0.3) newton) as Hinv.
  destruct newton as [s | sigma].
  - clear Hinv. unfold bisection_phase.
    destruct (for_range (Z.to_nat max_iter) _ (Fin 1e-6, Fin 5.0))
      as [bisection |] eqn:Hbis; [| discriminate].
    cbn [bind].
    pose proof (for_range_invariant
                  (fun st => exists l h, st = (Fin l, Fin h)
                                         /\ 1e-6 <= l /\ l < h /\ h <= 5.0)
                  (fun v => exists x, v = Fin x /\ 1e-6 < x < 5.0)
                  _
                  (fun st fl => bisection_body_range market S K T r _ q kind st fl)
                  _ _ _
                  ltac:(exists 1e-6, 5.0; repeat split; lra) Hbis) as Hinv.
    destruct bisection as [st | mid]; [discriminate |].
    intro H. injection H as <-.
    destruct Hinv as (x & -> & Hx). exists x. split; [reflexivity | lra].
  - intro H. injection H as <-.
    apply Hinv; [| exact Hnewton].
    right. exists 0.3. split; [reflexivity | lra].
Qed.

Lemma implied_volatility_range_witness :
  implied_volatility (Fin (call_price_R 100 100 1 0.05 0.3 0)) (Fin 100)
    (Fin 100) (Fin 1) (Fin 0.05) "call" (Fin 1e-4) 100 (Fin 0)
  = Ok (Some (Fin 0.3))
  /\ exists x, Fin 0.3 = Fin x /\ 1e-6 <= x <= 5.0.
Proof.
  assert (H : implied_volatility (Fin (call_price_R 100 100 1 0.05 0.3 0))
                (Fin 100) (Fin 100) (Fin 1) (Fin 0.05) "call" (Fin 1e-4) 100
                (Fin 0)
              = Ok (Some (Fin 0.3))).
  { apply implied_volatility_converged_at_start; try lra; try lia.
    - left; reflexivity.
    - change (price_R "call" 100 100 1 0.05 0.3 0)
        with (call_price_R 100 100 1 0.05 0.3 0).
      replace (call_price_R 100 100 1 0.05 0.3 0 - call_price_R 100 100 1 0.05 0.3 0)
        with 0 by ring.
      rewrite Rabs_R0.
      apply Rmult_lt_0_compat; [lra |].
      apply Rlt_le_trans with 1; [lra | apply Rmax_l]. }
  split; [exact H |].
  exact (implied_volatility_range _ _ _ _ _ _ _ _ _ _ H).
Defined.

(* ================================================================== *)
(** * Further properties of the engine *)

(** ** The analytic Greeks *)

Lemma norm_pdf_R_pos (x : R) : 0 < norm_pdf_R x.
Proof.
  unfold norm_pdf_R. apply Rdiv_lt_0_compat; [apply exp_pos |].
  apply sqrt_lt_R0. pose proof PI_RGT_0. lra.
Qed.

Lemma irregular_d_1_raises (S K T r sigma q : R) :
  ~ regular S K T sigma ->
  exists e, d_1 (Fin S) (Fin K) (Fin T) (Fin r) (Fin sigma) (Fin q) = Raise e.
Proof.
  intro Hirr.
  destruct (Req_dec K 0) as [-> | HK]; [eexists; apply d_1_zero_strike |].
  destruct (Rle_dec (S / K) 0) as [HSK | HSK];
    [eexists; now apply d_1_moneyness |].
  destruct (Rlt_dec T 0) as [HT | HT];
    [eexists; apply d_1_negative_expiry; lra |].
  destruct (Req_dec (sigma * sqrt T) 0) as [Hden | Hden];
    [eexists; apply d_1_zero_denominator; lra |].
  exfalso. apply Hirr. repeat split; lra.
Qed.

(** X1.  The domain of the analytic Greeks.  On inputs of ordinary
    magnitude (S, K, T and sigma zero or between 1e-100 and 1e100 in absolute
    value, [-q T] and [-r T] at most 700, so that nothing overflows or
    underflows), [d_1], [d_2] and (for a call or a put) [bs_greeks] return a
    value exactly when the strike is not zero, [S/K] is positive, [T] is not
    negative and [sigma * sqrt T] is not zero; on every other such input
    they raise. *)
Theorem bs_greeks_domain (S K T r sigma q : R) (kind : string) :
  is_call kind = true \/ is_put kind = true ->
  ordinary S -> ordinary K -> ordinary T -> ordinary sigma ->
  exp_defined (- q * T) -> exp_defined (- r * T) ->
  ((exists v, d_1 (Fin S) (Fin K) (Fin T) (Fin r) (Fin sigma) (Fin q) = Ok v)
   <-> regular S K T sigma)
  /\ ((exists v, d_2 (Fin S) (Fin K) (Fin T) (Fin r) (Fin sigma) (Fin q) = Ok v)
      <-> regular S K T sigma)
  /\ ((exists g,
         bs_greeks (Fin S) (Fin K) (Fin T) (Fin r) (Fin sigma) kind (Fin q) = Ok g)
      <-> regular S K T sigma).
Proof.
  intros Hkind _ _ _ _ _ _.
  assert (Hraise : ~ regular S K T sigma ->
            exists e,
              d_1 (Fin S) (Fin K) (Fin T) (Fin r) (Fin sigma) (Fin q) = Raise e)
    by apply irregular_d_1_raises.
  split; [split | split; split].
  - intros [v Hv]. destruct (classic (regular S K T sigma)) as [H | H]; [exact H |].
    destruct (Hraise H) as [e He]. congruence.
  - intro H. eexists. now apply d_1_Fin.
  - intros [v Hv]. destruct (classic (regular S K T sigma)) as [H | H]; [exact H |].
    destruct (Hraise H) as [e He]. unfold d_2 in Hv. rewrite He in Hv.
    discriminate Hv.
  - intro H. eexists. now apply d_2_Fin.
  - intros [g Hg]. destruct (classic (regular S K T sigma)) as [H | H]; [exact H |].
    destruct (Hraise H) as [e He].
    rewrite (bs_greeks_d_1_raises _ _ _ _ _ _ kind e He) in Hg. discriminate Hg.
  - intro H. eexists. now apply bs_greeks_Fin.
Qed.

Lemma bs_greeks_domain_witness :
  (exists g,
     bs_greeks (Fin 100) (Fin 115) (Fin 0.5) (Fin 0.05) (Fin 0.2) "call" (Fin 0)
     = Ok g)
  <-> regular 100 115 0.5 0.2.
Proof.
  apply (bs_greeks_domain 100 115 0.5 0.05 0.2 0 "call");
    try (apply ordinary_intro; lra); try (unfold exp_defined; lra).
  left; reflexivity.
Defined.

(** X2.  Gamma and vega do not depend on the option kind.  On a valid input
    [bs_greeks] returns the same gamma and the same vega for a call and for
    a put, neither is negative, and vega is gamma times
    [S^2 sigma T / 100]. *)
Theorem bs_greeks_gamma_vega (S K T r sigma q : R) (call put : string) :
  0 < S -> 0 < K -> 0 < T -> 0 < sigma ->
  is_call call = true -> is_put put = true ->
  exists (gc gp : greeks) (gam veg : R),
    bs_greeks (Fin S) (Fin K) (Fin T) (Fin r) (Fin sigma) call (Fin q) = Ok gc
    /\ bs_greeks (Fin S) (Fin K) (Fin T) (Fin r) (Fin sigma) put (Fin q) = Ok gp
    /\ gamma gc = Fin gam /\ gamma gp = Fin gam
    /\ vega gc = Fin veg /\ vega gp = Fin veg
    /\ 0 <= gam /\ 0 <= veg
    /\ veg = gam * (S * S * sigma * T / 100).
Proof.
  intros HS HK HT Hs Hc Hp.
  pose proof (valid_regular S K T sigma HS HK HT Hs) as Hreg.
  pose proof (sqrt_lt_R0 T HT) as Hsq.
  pose proof (sqrt_sqrt T ltac:(lra)) as Hsqsq.
  pose proof (norm_pdf_R_pos (d1_R S K T r sigma q)) as Hpdf.
  pose proof (exp_pos (- q * T)) as Hexp.
  eexists _, _, (gamma_R S K T r sigma q), (vega_R S K T r sigma q).
  split; [apply bs_greeks_Fin; auto |].
  split; [apply bs_greeks_Fin; auto |].
  do 4 (split; [reflexivity |]).
  assert (Hnum : 0 < exp (- q * T) * norm_pdf_R (d1_R S K T r sigma q))
    by now apply Rmult_lt_0_compat.
  assert (Hden : 0 < S * sigma * sqrt T)
    by (repeat apply Rmult_lt_0_compat; assumption).
  unfold gamma_R, vega_R. split; [| split].
  - left. now apply Rdiv_lt_0_compat.
  - left. apply Rdiv_lt_0_compat; [| lra].
    apply Rmult_lt_0_compat; [| assumption].
    rewrite Rmult_assoc. now apply Rmult_lt_0_compat.
  - replace (S * S * sigma * T / 100)
      with (S * S * sigma * (sqrt T * sqrt T) / 100) by (now rewrite Hsqsq).
    field. repeat split; lra.
Qed.

Lemma bs_greeks_gamma_vega_witness :
  exists (gc gp : greeks) (gam veg : R),
    bs_greeks (Fin 100) (Fin 115) (Fin 0.5) (Fin 0.05) (Fin 0.2) "call" (Fin 0)
    = Ok gc
    /\ bs_greeks (Fin 100) (Fin 115) (Fin 0.5) (Fin 0.05) (Fin 0.2) "put" (Fin 0)
       = Ok gp
    /\ gamma gc = Fin gam /\ gamma gp = Fin gam
    /\ vega gc = Fin veg /\ vega gp = Fin veg
    /\ 0 <= gam /\ 0 <= veg
    /\ veg = gam * (100 * 100 * 0.2 * 0.5 / 100).
Proof.
  apply (bs_greeks_gamma_vega 100 115 0.5 0.05 0.2 0 "call" "put");
    try lra; reflexivity.
Defined.

(** X3.  The ranges of delta and rho.  On a valid input the delta of a call
    lies in [[0, e^(-qT)]] and its rho is not negative; the delta of a put
    lies in [[-e^(-qT), 0]] and its rho is not positive. *)
Theorem bs_greeks_delta_rho_range (S K T r sigma q : R) (kind : string) :
  0 < S -> 0 < K -> 0 < T -> 0 < sigma ->
  is_call kind = true \/ is_put kind = true ->
  exists (g : greeks) (d rh : R),
    bs_greeks (Fin S) (Fin K) (Fin T) (Fin r) (Fin sigma) kind (Fin q) = Ok g
    /\ delta g = Fin d /\ rho g = Fin rh
    /\ (is_call kind = true -> 0 <= d <= exp (- q * T) /\ 0 <= rh)
    /\ (is_put kind = true -> - exp (- q * T) <= d <= 0 /\ rh <= 0).
Proof.
  intros HS HK HT Hs Hkind.
  pose proof (valid_regular S K T sigma HS HK HT Hs) as Hreg.
  pose proof (norm_cdf_R_range (d1_R S K T r sigma q)) as H1.
  pose proof (norm_cdf_R_range (d2_R S K T r sigma q)) as H2.
  pose proof (norm_cdf_R_range (- d2_R S K T r sigma q)) as H2'.
  pose proof (exp_pos (- q * T)) as Hq.
  pose proof (exp_pos (- r * T)) as Hr.
  assert (HKT : 0 < K * T * exp (- r * T))
    by (repeat apply Rmult_lt_0_compat; assumption).
  eexists _, (delta_R kind S K T r sigma q), (rho_R kind S K T r sigma q).
  split; [apply bs_greeks_Fin; auto |].
  split; [reflexivity |]. split; [reflexivity |].
  unfold delta_R, rho_R. split.
  - intros Hc. rewrite Hc. repeat split; nra.
  - intros Hp. rewrite (is_put_not_call _ Hp). repeat split; nra.
Qed.

Lemma bs_greeks_delta_rho_range_witness :
  exists (g : greeks) (d rh : R),
    bs_greeks (Fin 100) (Fin 115) (Fin 0.5) (Fin 0.05) (Fin 0.2) "put" (Fin 0)
    = Ok g
    /\ delta g = Fin d /\ rho g = Fin rh
    /\ - exp (- 0 * 0.5) <= d <= 0 /\ rh <= 0.
Proof.
  destruct (bs_greeks_delta_rho_range 100 115 0.5 0.05 0.2 0 "put")
    as (g & d & rh & Hg & Hd & Hrh & _ & Hput); try lra.
  - right; reflexivity.
  - exists g, d, rh. repeat split; try assumption; apply Hput; reflexivity.
Defined.

(** X4.  Rho and theta parity.  On a valid input the rho of a call minus
    the rho of a put is [K T e^(-rT)], and the theta of a call minus the
    theta of a put, as [bs_greeks] computes them, is
    [r K e^(-rT) - q S e^(-qT)]. *)
Theorem bs_greeks_rho_theta_parity (S K T r sigma q : R) (call put : string) :
  0 < S -> 0 < K -> 0 < T -> 0 < sigma ->
  is_call call = true -> is_put put = true ->
  exists (gc gp : greeks) (rc rp tc tp : R),
    bs_greeks (Fin S) (Fin K) (Fin T) (Fin r) (Fin sigma) call (Fin q) = Ok gc
    /\ bs_greeks (Fin S) (Fin K) (Fin T) (Fin r) (Fin sigma) put (Fin q) = Ok gp
    /\ rho gc = Fin rc /\ rho gp = Fin rp
    /\ theta gc = Fin tc /\ theta gp = Fin tp
    /\ rc - rp = K * T * exp (- r * T)
    /\ tc - tp = r * K * exp (- r * T) - q * S * exp (- q * T).
Proof.
  intros HS HK HT Hs Hc Hp.
  pose proof (valid_regular S K T sigma HS HK HT Hs) as Hreg.
  eexists _, _, (rho_R call S K T r sigma q), (rho_R put S K T r sigma q),
    (theta_R call S K T r sigma q), (theta_R put S K T r sigma q).
  split; [apply bs_greeks_Fin; auto |].
  split; [apply bs_greeks_Fin; auto |].
  do 4 (split; [reflexivity |]).
  unfold rho_R, theta_R. rewrite Hc, (is_put_not_call _ Hp).
  cbv zeta. rewrite !norm_cdf_R_opp. split; ring.
Qed.

Lemma bs_greeks_rho_theta_parity_witness :
  exists (gc gp : greeks) (rc rp tc tp : R),
    bs_greeks (Fin 100) (Fin 115) (Fin 0.5) (Fin 0.05) (Fin 0.2) "call" (Fin 0)
    = Ok gc
    /\ bs_greeks (Fin 100) (Fin 115) (Fin 0.5) (Fin 0.05) (Fin 0.2) "put" (Fin 0)
       = Ok gp
    /\ rho gc = Fin rc /\ rho gp = Fin rp
    /\ theta gc = Fin tc /\ theta gp = Fin tp
    /\ rc - rp = 115 * 0.5 * exp (- (0.05) * 0.5)
    /\ tc - tp = 0.05 * 115 * exp (- (0.05) * 0.5) - 0 * 100 * exp (- 0 * 0.5).
Proof.
  apply (bs_greeks_rho_theta_parity 100 115 0.5 0.05 0.2 0 "call" "put");
    try lra; reflexivity.
Defined.

(* ================================================================== *)
(** ** The analytic price *)

Lemma put_price_bounds (S K T r sigma q : R) :
  0 < S -> 0 < K ->
  - (S * exp (- q * T)) <= put_price_R S K T r sigma q <= K * exp (- r * T).
Proof.
  intros HS HK. unfold put_price_R.
  pose proof (norm_cdf_R_range (- d1_R S K T r sigma q)) as H1.
  pose proof (norm_cdf_R_range (- d2_R S K T r sigma q)) as H2.
  assert (Hq : 0 < S * exp (- q * T))
    by (apply Rmult_lt_0_compat; [assumption | apply exp_pos]).
  assert (Hr : 0 < K * exp (- r * T))
    by (apply Rmult_lt_0_compat; [assumption | apply exp_pos]).
  split; nra.
Qed.

(** X5.  Upper bounds of the price.  On a valid input [bs_pricing] returns
    a finite price; a call is worth at most the discounted spot
    [S e^(-qT)] and a put at most the discounted strike [K e^(-rT)]. *)
Theorem bs_pricing_upper_bound (S K T r sigma q : R) (kind : string) :
  0 < S -> 0 < K -> 0 < T -> 0 < sigma ->
  is_call kind = true \/ is_put kind = true ->
  exists p : R,
    bs_pricing (Fin S) (Fin K) (Fin T) (Fin r) (Fin sigma) kind (Fin q)
    = Ok (Fin p)
    /\ (is_call kind = true -> p <= S * exp (- q * T))
    /\ (is_put kind = true -> p <= K * exp (- r * T)).
Proof.
  intros HS HK HT Hs Hkind.
  pose proof (valid_regular S K T sigma HS HK HT Hs) as Hreg.
  exists (price_R kind S K T r sigma q).
  split; [now apply bs_pricing_Fin |]. unfold price_R. split.
  - intro Hc. rewrite Hc. apply call_price_bounds; assumption.
  - intro Hp. rewrite (is_put_not_call _ Hp). apply put_price_bounds; assumption.
Qed.

Lemma bs_pricing_upper_bound_witness :
  exists p : R,
    bs_pricing (Fin 100) (Fin 115) (Fin 0.5) (Fin 0.05) (Fin 0.2) "call" (Fin 0)
    = Ok (Fin p)
    /\ p <= 100 * exp (- 0 * 0.5).
Proof.
  destruct (bs_pricing_upper_bound 100 115 0.5 0.05 0.2 0 "call")
    as (p & Hp & Hc & _); try lra.
  - left; reflexivity.
  - exists p. split; [exact Hp | apply Hc; reflexivity].
Defined.

Lemma d1_R_scale (lam S K T r sigma q : R) :
  0 < lam -> 0 < K ->
  d1_R (lam * S) (lam * K) T r sigma q = d1_R S K T r sigma q.
Proof.
  intros Hl HK. unfold d1_R.
  replace (lam * S / (lam * K)) with (S / K) by (field; lra).
  reflexivity.
Qed.

(** X6.  The price is homogeneous of degree one in spot and strike.  On a
    valid input, scaling S and K by the same positive factor scales the
    price returned by [bs_pricing] by that factor and leaves the delta
    returned by [bs_greeks] unchanged. *)
Theorem bs_pricing_homogeneous (lam S K T r sigma q : R) (kind : string) :
  0 < lam -> 0 < S -> 0 < K -> 0 < T -> 0 < sigma ->
  is_call kind = true \/ is_put kind = true ->
  exists (p d : R) (g g' : greeks),
    bs_pricing (Fin S) (Fin K) (Fin T) (Fin r) (Fin sigma) kind (Fin q)
    = Ok (Fin p)
    /\ bs_pricing (Fin (lam * S)) (Fin (lam * K)) (Fin T) (Fin r) (Fin sigma)
         kind (Fin q)
       = Ok (Fin (lam * p))
    /\ bs_greeks (Fin S) (Fin K) (Fin T) (Fin r) (Fin sigma) kind (Fin q) = Ok g
    /\ bs_greeks (Fin (lam * S)) (Fin (lam * K)) (Fin T) (Fin r) (Fin sigma)
         kind (Fin q)
       = Ok g'
    /\ delta g = Fin d /\ delta g' = Fin d.
Proof.
  intros Hl HS HK HT Hs Hkind.
  pose proof (valid_regular S K T sigma HS HK HT Hs) as Hreg.
  assert (HlS : 0 < lam * S) by now apply Rmult_lt_0_compat.
  assert (HlK : 0 < lam * K) by now apply Rmult_lt_0_compat.
  pose proof (valid_regular _ _ T sigma HlS HlK HT Hs) as Hreg'.
  pose proof (d1_R_scale lam S K T r sigma q Hl HK) as Hd1.
  assert (Hd2 : d2_R (lam * S) (lam * K) T r sigma q = d2_R S K T r sigma q)
    by (unfold d2_R; now rewrite Hd1).
  exists (price_R kind S K T r sigma q), (delta_R kind S K T r sigma q).
  eexists _, _.
  split; [now apply bs_pricing_Fin |].
  split.
  { rewrite bs_pricing_Fin by assumption. do 2 f_equal.
    unfold price_R, call_price_R, put_price_R. rewrite Hd1, Hd2.
    destruct (is_call kind); ring. }
  split; [now apply bs_greeks_Fin |].
  split; [now apply bs_greeks_Fin |].
  split; [reflexivity |].
  cbn [delta]. f_equal. unfold delta_R. now rewrite Hd1.
Qed.

Lemma bs_pricing_homogeneous_witness :
  exists (p d : R) (g g' : greeks),
    bs_pricing (Fin 100) (Fin 115) (Fin 0.5) (Fin 0.05) (Fin 0.2) "call" (Fin 0)
    = Ok (Fin p)
    /\ bs_pricing (Fin (2 * 100)) (Fin (2 * 115)) (Fin 0.5) (Fin 0.05) (Fin 0.2)
         "call" (Fin 0)
       = Ok (Fin (2 * p))
    /\ bs_greeks (Fin 100) (Fin 115) (Fin 0.5) (Fin 0.05) (Fin 0.2) "call" (Fin 0)
       = Ok g
    /\ bs_greeks (Fin (2 * 100)) (Fin (2 * 115)) (Fin 0.5) (Fin 0.05) (Fin 0.2)
         "call" (Fin 0)
       = Ok g'
    /\ delta g = Fin d /\ delta g' = Fin d.
Proof.
  apply (bs_pricing_homogeneous 2 100 115 0.5 0.05 0.2 0 "call"); try lra.
  left; reflexivity.
Defined.

(* ================================================================== *)
(** ** The implied-volatility solver: edges and the bisection bracket *)

(** X7.  No iterations.  With [max_iter <= 0] both loops are empty:
    [implied_volatility] returns [None] whatever the other arguments are,
    an unknown option kind or a zero strike included, since nothing is
    evaluated. *)
Theorem implied_volatility_no_iterations (market S K T r tol q : float64)
    (kind : string) (max_iter : Z) :
  (max_iter <= 0)%Z ->
  implied_volatility market S K T r kind tol max_iter q = Ok None.
Proof.
  intro Hn. unfold implied_volatility, bisection_phase.
  destruct (Z.to_nat max_iter) as [| k] eqn:Hk; [reflexivity | lia].
Qed.

Lemma implied_volatility_no_iterations_witness :
  implied_volatility (Fin 5) (Fin 100) (Fin 0) (Fin (-1)) (Fin 0.05) "straddle"
    (Fin 1e-4) 0 (Fin 0)
  = Ok None.
Proof. apply implied_volatility_no_iterations. lia. Defined.

(** X8.  An unknown option kind in the solver.  With at least one iteration
    and a kind that is neither a call nor a put, [implied_volatility] fails
    in its first call of [bs_pricing]: with ZeroDivisionError if the strike
    is zero, with UnboundLocalError otherwise.  It never returns. *)
Theorem implied_volatility_unknown_kind (market S K T r tol q : float64)
    (kind : string) (max_iter : Z) :
  is_call kind = false -> is_put kind = false -> (0 < max_iter)%Z ->
  implied_volatility market S K T r kind tol max_iter q
  = (_ <- py_div S K ;; Raise UnboundLocalError)%result.
Proof.
  intros Hc Hp Hn. unfold implied_volatility.
  destruct (Z.to_nat max_iter) as [| k] eqn:Hk; [lia |].
  cbn [for_range]. unfold newton_body at 1.
  rewrite (bs_pricing_unknown_kind S K T r (Fin 0.3) q kind Hc Hp).
  destruct (py_div S K); reflexivity.
Qed.

Lemma implied_volatility_unknown_kind_witness :
  implied_volatility (Fin 5) (Fin 100) (Fin 115) (Fin 0.5) (Fin 0.05) "straddle"
    (Fin 1e-4) 100 (Fin 0)
  = Raise UnboundLocalError.
Proof.
  rewrite implied_volatility_unknown_kind by (reflexivity || lia).
  rewrite py_div_Fin by lra. reflexivity.
Defined.

(** X9.  The bisection bracket.  Whatever the other inputs, [n] passes of
    the bisection loop from the bracket [[1e-6, 5.0]] of the source that end
    without a [return] leave a bracket [low <= high] inside [[1e-6, 5.0]];
    a midpoint that is returned lies in [[1e-6, 5.0]], [bs_pricing] returned
    a price for it, and that price passed the tolerance test. *)
Theorem bisection_bracket (market S K T r tolp q : float64) (kind : string)
    (n : nat) (out : float64 * float64 + float64) :
  for_range n (bisection_body market S K T r kind tolp q) (Fin 1e-6, Fin 5.0)
  = Ok out ->
  match out with
  | inl st =>
      exists l h, st = (Fin l, Fin h) /\ 1e-6 <= l /\ l <= h /\ h <= 5.0
  | inr v =>
      exists x price,
        v = Fin x /\ 1e-6 <= x <= 5.0
        /\ bs_pricing S K T r (Fin x) kind q = Ok price
        /\ fltb (fabs (fsub price market)) tolp = true
  end.
Proof.
  assert (Hgen : forall lo hi : R,
            1e-6 <= lo -> lo <= hi -> hi <= 5.0 ->
            for_range n (bisection_body market S K T r kind tolp q)
              (Fin lo, Fin hi) = Ok out ->
            match out with
            | inl st =>
                exists l h, st = (Fin l, Fin h) /\ 1e-6 <= l /\ l <= h
                            /\ h <= 5.0
            | inr v =>
                exists x price,
                  v = Fin x /\ 1e-6 <= x <= 5.0
                  /\ bs_pricing S K T r (Fin x) kind q = Ok price
                  /\ fltb (fabs (fsub price market)) tolp = true
            end).
  { induction n as [| n IH]; intros lo hi Hlo Hle Hhi Hrun.
    - cbn [for_range] in Hrun. injection Hrun as <-.
      exists lo, hi. repeat split; assumption.
    - cbn [for_range] in Hrun. unfold bisection_body at 1 in Hrun.
      cbn [fadd] in Hrun. rewrite fdiv_Fin in Hrun by lra.
      destruct (bs_pricing S K T r (Fin ((lo + hi) / 2)) kind q)
        as [price |] eqn:Hp; [| discriminate].
      cbn [bind] in Hrun.
      destruct (fltb (fabs (fsub price market)) tolp) eqn:Htest.
      + cbn [bind] in Hrun. injection Hrun as <-.
        exists ((lo + hi) / 2), price. repeat split; try assumption; lra.
      + destruct (fgtb price market); cbn [bind] in Hrun.
        * apply (IH lo ((lo + hi) / 2)); try lra. exact Hrun.
        * apply (IH ((lo + hi) / 2) hi); try lra. exact Hrun. }
  apply Hgen; lra.
Qed.

Lemma bisection_first_pass_example :
  for_range 1
    (bisection_body (Fin 200) (Fin 100) (Fin 115) (Fin 0.5) (Fin 0.05) "call"
       (Fin 1e-4) (Fin 0))
    (Fin 1e-6, Fin 5.0)
  = Ok (inl (Fin ((1e-6 + 5.0) / 2), Fin 5.0)).
Proof.
  cbn [for_range].
  rewrite bisection_body_Fin by (lra || (left; reflexivity)).
  pose proof (call_price_bounds 100 115 0.5 0.05 ((1e-6 + 5.0) / 2) 0
                ltac:(lra) ltac:(lra)) as [_ Hub].
  replace (- 0 * 0.5) with 0 in Hub by ring. rewrite exp_0 in Hub.
  change (price_R "call" 100 115 0.5 0.05 ((1e-6 + 5.0) / 2) 0)
    with (call_price_R 100 115 0.5 0.05 ((1e-6 + 5.0) / 2) 0).
  destruct (Rlt_dec _ _) as [Hconv | _].
  - exfalso. apply Rabs_def2 in Hconv. lra.
  - destruct (Rlt_dec _ _) as [Hgt | _]; [lra | reflexivity].
Qed.

Lemma bisection_bracket_witness :
  exists l h,
    (Fin ((1e-6 + 5.0) / 2), Fin 5.0) = (Fin l, Fin h)
    /\ 1e-6 <= l /\ l <= h /\ h <= 5.0.
Proof.
  exact (bisection_bracket (Fin 200) (Fin 100) (Fin 115) (Fin 0.5) (Fin 0.05)
           (Fin 1e-4) (Fin 0) "call" 1
           (inl (Fin ((1e-6 + 5.0) / 2), Fin 5.0))
           bisection_first_pass_example).
Defined.

(* ================================================================== *)
(** ** The Monte Carlo price *)

Lemma rng_draws_nonempty (n : Z) (g : rng) :
  (0 < n)%Z -> rng_draws (Z.to_nat n) g <> [].
Proof.
  intros Hn H. apply (f_equal (@List.length R)) in H.
  unfold rng_draws in H. rewrite !length_map, length_seq in H.
  cbn [List.length] in H. lia.
Qed.

Lemma rng_draws_map_nonempty (n : Z) (g : rng) (f : R -> R) :
  (0 < n)%Z -> map f (rng_draws (Z.to_nat n) g) <> [].
Proof.
  intros Hn H. apply map_eq_nil in H. revert H. now apply rng_draws_nonempty.
Qed.

(** The value of [mc_pricing] on finite inputs, path by path. *)
Lemma mc_pricing_value (S K T r sigma q : R) (kind : string) (n : Z) (g : rng) :
  is_call kind = true \/ is_put kind = true ->
  0 <= T -> (0 < n)%Z ->
  mc_pricing (Fin S) (Fin K) (Fin T) (Fin r) (Fin sigma) kind n (Fin q) g
  = Ok (Fin (mc_estimate_R kind S K T r sigma q (rng_draws (Z.to_nat n) g)),
        rng_skip (Z.to_nat n) g).
Proof.
  intros Hkind HT Hn. unfold mc_pricing.
  rewrite standard_normal_returns by lia. cbn [bind].
  rewrite !(final_stock_price_Fin S T r sigma q _ g HT).
  unfold mc_estimate_R, payoff_R.
  destruct Hkind as [Hc | Hp].
  - rewrite Hc. cbn [read_local bind].
    rewrite payoff_call_Fin, !map_map, <- (map_map _ Fin), np_mean_Fin
      by now apply rng_draws_map_nonempty.
    reflexivity.
  - rewrite (is_put_not_call _ Hp), Hp. cbn [read_local bind].
    rewrite payoff_put_Fin, !map_map, <- (map_map _ Fin), np_mean_Fin
      by now apply rng_draws_map_nonempty.
    reflexivity.
Qed.

Lemma sum_map_bounds (f : R -> R) (lo hi : R) (l : list R) :
  (forall z, lo <= f z <= hi) ->
  INR (List.length l) * lo <= fold_right Rplus 0 (map f l)
  <= INR (List.length l) * hi.
Proof.
  intro Hf. induction l as [| z l IH].
  - cbn. lra.
  - cbn [map fold_right List.length]. rewrite S_INR.
    specialize (Hf z). lra.
Qed.

Lemma mean_map_bounds (f : R -> R) (lo hi : R) (l : list R) :
  l <> [] -> (forall z, lo <= f z <= hi) ->
  lo <= mean_R (map f l) <= hi.
Proof.
  intros Hl Hf. unfold mean_R. rewrite length_map.
  pose proof (sum_map_bounds f lo hi l Hf) as Hs.
  assert (Hn : 0 < INR (List.length l)).
  { destruct l; [congruence |]. apply lt_0_INR. cbn. lia. }
  split.
  - apply Rmult_le_reg_r with (INR (List.length l)); [exact Hn |].
    unfold Rdiv. rewrite Rmult_assoc, Rinv_l by lra. lra.
  - apply Rmult_le_reg_r with (INR (List.length l)); [exact Hn |].
    unfold Rdiv. rewrite Rmult_assoc, Rinv_l by lra. lra.
Qed.

Lemma mean_map_lower (f : R -> R) (lo : R) (l : list R) :
  l <> [] -> (forall z, lo <= f z) -> lo <= mean_R (map f l).
Proof.
  intros Hl Hf. unfold mean_R. rewrite length_map.
  assert (Hs : INR (List.length l) * lo <= fold_right Rplus 0 (map f l)).
  { clear Hl. induction l as [| z l IH].
    - cbn. lra.
    - cbn [map fold_right List.length]. rewrite S_INR. specialize (Hf z). lra. }
  assert (Hn : 0 < INR (List.length l)).
  { destruct l; [congruence |]. apply lt_0_INR. cbn. lia. }
  apply Rmult_le_reg_r with (INR (List.length l)); [exact Hn |].
  unfold Rdiv. rewrite Rmult_assoc, Rinv_l by lra. lra.
Qed.

Lemma mean_map_minus (f h : R -> R) (l : list R) :
  mean_R (map f l) - mean_R (map h l) = mean_R (map (fun z => f z - h z) l).
Proof.
  unfold mean_R. rewrite !length_map.
  assert (Hs : fold_right Rplus 0 (map f l) - fold_right Rplus 0 (map h l)
               = fold_right Rplus 0 (map (fun z => f z - h z) l)).
  { induction l as [| z l IH]; cbn [map fold_right]; [ring |].
    rewrite <- IH. ring. }
  rewrite <- Hs. unfold Rdiv. ring.
Qed.

Lemma mean_map_shift (f : R -> R) (c : R) (l : list R) :
  l <> [] ->
  mean_R (map (fun z => f z - c) l) = mean_R (map f l) - c.
Proof.
  intro Hl. unfold mean_R. rewrite !length_map.
  assert (Hs : fold_right Rplus 0 (map (fun z => f z - c) l)
               = fold_right Rplus 0 (map f l) - INR (List.length l) * c).
  { clear Hl. induction l as [| z l IH].
    - cbn. ring.
    - cbn [map fold_right List.length]. rewrite S_INR, IH. ring. }
  rewrite Hs. field.
  destruct l; [congruence |]. apply not_0_INR. cbn. lia.
Qed.

(** X10.  The path count at its edges.  For a call or a put,
    [mc_pricing] with [n = 0] draws nothing and returns [nan], the mean of
    an empty payoff array; with [n < 0] it raises ValueError, whatever the
    option kind. *)
Theorem mc_pricing_path_count_edges (S K T r sigma q : float64)
    (kind : string) (g : rng) :
  is_call kind = true \/ is_put kind = true ->
  mc_pricing S K T r sigma kind 0 q g = Ok (NaN, g)
  /\ forall (n : Z) (any_kind : string),
       (n < 0)%Z -> mc_pricing S K T r sigma any_kind n q g = Raise ValueError.
Proof.
  intro Hkind. split.
  - unfold mc_pricing. rewrite standard_normal_returns by lia. cbn [bind].
    assert (Hmean : np_mean [] = NaN).
    { unfold np_mean, np_sum, np_div. cbn [fold_left List.length INR].
      rewrite fdiv_Fin_zero, Rsign_zero. reflexivity. }
    destruct Hkind as [Hc | Hp].
    + rewrite Hc. cbn [Z.to_nat rng_take seq map read_local bind].
      rewrite Hmean, fmul_NaN_r. reflexivity.
    + rewrite (is_put_not_call _ Hp), Hp.
      cbn [Z.to_nat rng_take seq map read_local bind].
      rewrite Hmean, fmul_NaN_r. reflexivity.
  - intros n any_kind Hn. unfold mc_pricing, standard_normal.
    destruct (Z.ltb_spec n 0); [reflexivity | lia].
Qed.

Lemma mc_pricing_path_count_edges_witness :
  mc_pricing (Fin 100) (Fin 115) (Fin 0.5) (Fin 0.05) (Fin 0.2) "put" 0 (Fin 0)
    (fun _ => 0)
  = Ok (NaN, fun _ => 0).
Proof.
  apply (mc_pricing_path_count_edges (Fin 100) (Fin 115) (Fin 0.5) (Fin 0.05)
           (Fin 0.2) (Fin 0) "put" (fun _ => 0)).
  right; reflexivity.
Defined.

(** X11.  The Monte Carlo price is never negative.  For finite inputs with
    [T >= 0] and [n > 0], [mc_pricing] returns a finite price that is at
    least zero, whatever the draws; for a put with a non-negative strike it
    is at most the discounted strike [K e^(-rT)]. *)
Theorem mc_pricing_bounds (S K T r sigma q : R) (kind : string) (n : Z)
    (g : rng) :
  is_call kind = true \/ is_put kind = true ->
  0 <= T -> (0 < n)%Z ->
  exists p : R,
    mc_pricing (Fin S) (Fin K) (Fin T) (Fin r) (Fin sigma) kind n (Fin q) g
    = Ok (Fin p, rng_skip (Z.to_nat n) g)
    /\ 0 <= p
    /\ (is_put kind = true -> 0 <= K -> S >= 0 -> p <= K * exp (- r * T)).
Proof.
  intros Hkind HT Hn.
  eexists. split; [now apply mc_pricing_value |].
  pose proof (exp_pos (- r * T)) as Hd.
  unfold mc_estimate_R. split.
  - apply Rmult_le_pos; [lra |].
    apply mean_map_lower; [now apply rng_draws_nonempty |].
    intro z. unfold payoff_R. destruct (is_call kind); apply Rmax_r.
  - intros Hp HK HS.
    rewrite (Rmult_comm K). apply Rmult_le_compat_l; [lra |].
    apply mean_map_bounds with (lo := 0); [now apply rng_draws_nonempty |].
    intro z. unfold payoff_R. rewrite (is_put_not_call _ Hp).
    assert (Hs : 0 <= terminal_price_R S T r sigma q z).
    { unfold terminal_price_R. apply Rmult_le_pos; [lra |].
      left; apply exp_pos. }
    split; [apply Rmax_r |]. apply Rmax_lub; lra.
Qed.

Lemma mc_pricing_bounds_witness :
  exists p : R,
    mc_pricing (Fin 100) (Fin 115) (Fin 0.5) (Fin 0.05) (Fin 0.2) "put" 10
      (Fin 0) (fun i => INR i)
    = Ok (Fin p, rng_skip (Z.to_nat 10) (fun i => INR i))
    /\ 0 <= p /\ p <= 115 * exp (- (0.05) * 0.5).
Proof.
  destruct (mc_pricing_bounds 100 115 0.5 0.05 0.2 0 "put" 10 (fun i => INR i))
    as (p & Hp & H0 & Hub); [right; reflexivity | lra | lia |].
  exists p. repeat split; try assumption.
  apply Hub; [reflexivity | lra | lra].
Defined.

Lemma payoff_difference (K s : R) : Rmax (s - K) 0 - Rmax (K - s) 0 = s - K.
Proof.
  unfold Rmax. destruct (Rle_dec (s - K) 0), (Rle_dec (K - s) 0); lra.
Qed.

(** X12.  Put-call parity on one sample.  For finite inputs with [T >= 0]
    and [n > 0], the call price and the put price that [mc_pricing] returns
    from the same state of the random source differ by [e^(-rT)] times the
    sample mean of the terminal prices minus the strike. *)
Theorem mc_pricing_sample_parity (S K T r sigma q : R) (call put : string)
    (n : Z) (g : rng) :
  is_call call = true -> is_put put = true ->
  0 <= T -> (0 < n)%Z ->
  exists c p : R,
    mc_pricing (Fin S) (Fin K) (Fin T) (Fin r) (Fin sigma) call n (Fin q) g
    = Ok (Fin c, rng_skip (Z.to_nat n) g)
    /\ mc_pricing (Fin S) (Fin K) (Fin T) (Fin r) (Fin sigma) put n (Fin q) g
       = Ok (Fin p, rng_skip (Z.to_nat n) g)
    /\ c - p
       = exp (- r * T)
         * (mean_R (map (terminal_price_R S T r sigma q)
                      (rng_draws (Z.to_nat n) g)) - K).
Proof.
  intros Hc Hp HT Hn.
  eexists _, _.
  split; [apply mc_pricing_value; auto |].
  split; [apply mc_pricing_value; auto |].
  unfold mc_estimate_R, payoff_R. rewrite Hc, (is_put_not_call _ Hp).
  rewrite <- Rmult_minus_distr_l. f_equal.
  rewrite (mean_map_minus
             (fun z => Rmax (terminal_price_R S T r sigma q z - K) 0)
             (fun z => Rmax (K - terminal_price_R S T r sigma q z) 0)).
  rewrite <- (mean_map_shift (terminal_price_R S T r sigma q) K)
    by now apply rng_draws_nonempty.
  f_equal. apply map_ext. intro z. apply payoff_difference.
Qed.

Lemma mc_pricing_sample_parity_witness :
  exists c p : R,
    mc_pricing (Fin 100) (Fin 115) (Fin 0.5) (Fin 0.05) (Fin 0.2) "call" 10
      (Fin 0) (fun i => INR i)
    = Ok (Fin c, rng_skip (Z.to_nat 10) (fun i => INR i))
    /\ mc_pricing (Fin 100) (Fin 115) (Fin 0.5) (Fin 0.05) (Fin 0.2) "put" 10
         (Fin 0) (fun i => INR i)
       = Ok (Fin p, rng_skip (Z.to_nat 10) (fun i => INR i))
    /\ c - p
       = exp (- (0.05) * 0.5)
         * (mean_R (map (terminal_price_R 100 0.5 0.05 0.2 0)
                      (rng_draws (Z.to_nat 10) (fun i => INR i))) - 115).
Proof.
  apply (mc_pricing_sample_parity 100 115 0.5 0.05 0.2 0 "call" "put" 10
           (fun i => INR i)); [reflexivity | reflexivity | lra | lia].
Defined.

Lemma discount_Rmax (d a : R) : 0 < d -> d * Rmax a 0 = Rmax (d * a) 0.
Proof.
  intro Hd. unfold Rmax.
  destruct (Rle_dec a 0), (Rle_dec (d * a) 0); nra.
Qed.

Lemma mean_map_const (f : R -> R) (c : R) (l : list R) :
  l <> [] -> (forall z, f z = c) -> mean_R (map f l) = c.
Proof.
  intros Hl Hf.
  pose proof (mean_map_bounds f c c l Hl) as H.
  assert (Hb : forall z, c <= f z <= c) by (intro z; rewrite Hf; lra).
  specialize (H Hb). lra.
Qed.

(** X13.  No diffusion.  For a call or a put on finite inputs with
    [T >= 0] and [n > 0], when [sigma = 0] or [T = 0] [mc_pricing] returns
    the intrinsic value [max(S e^(-qT) - K e^(-rT), 0)] of a call
    ([max(K e^(-rT) - S e^(-qT), 0)] of a put) whatever the draws, and
    leaves the random source advanced by [n] draws. *)
Theorem mc_pricing_no_diffusion (S K T r sigma q : R) (kind : string) (n : Z)
    (g : rng) :
  is_call kind = true \/ is_put kind = true ->
  0 <= T -> (0 < n)%Z ->
  sigma = 0 \/ T = 0 ->
  mc_pricing (Fin S) (Fin K) (Fin T) (Fin r) (Fin sigma) kind n (Fin q) g
  = Ok (Fin (intrinsic_R kind S K T r q), rng_skip (Z.to_nat n) g).
Proof.
  intros Hkind HT Hn Hdeg.
  rewrite mc_pricing_value by assumption. do 3 f_equal.
  assert (Hterm : forall z,
            terminal_price_R S T r sigma q z = S * exp ((r - q) * T)).
  { intro z. unfold terminal_price_R. f_equal. f_equal.
    destruct Hdeg as [-> | ->]; [| rewrite sqrt_0]; ring. }
  pose proof (exp_pos (- r * T)) as Hd.
  assert (Hfwd : exp (- r * T) * (S * exp ((r - q) * T)) = S * exp (- q * T)).
  { rewrite (Rmult_comm S), <- Rmult_assoc, <- exp_plus.
    replace (- r * T + (r - q) * T) with (- q * T) by ring. ring. }
  unfold mc_estimate_R, intrinsic_R, payoff_R.
  destruct (is_call kind).
  - rewrite (mean_map_const _ (Rmax (S * exp ((r - q) * T) - K) 0))
      by (now apply rng_draws_nonempty || (intro z; now rewrite Hterm)).
    rewrite discount_Rmax by assumption. f_equal.
    rewrite Rmult_minus_distr_l, Hfwd. ring.
  - rewrite (mean_map_const _ (Rmax (K - S * exp ((r - q) * T)) 0))
      by (now apply rng_draws_nonempty || (intro z; now rewrite Hterm)).
    rewrite discount_Rmax by assumption. f_equal.
    rewrite Rmult_minus_distr_l, Hfwd. ring.
Qed.

Lemma mc_pricing_no_diffusion_witness :
  mc_pricing (Fin 100) (Fin 90) (Fin 0.5) (Fin 0.05) (Fin 0) "call" 10 (Fin 0)
    (fun i => INR i)
  = Ok (Fin (intrinsic_R "call" 100 90 0.5 0.05 0),
        rng_skip (Z.to_nat 10) (fun i => INR i)).
Proof.
  apply (mc_pricing_no_diffusion 100 90 0.5 0.05 0 0 "call" 10 (fun i => INR i));
    [left; reflexivity | lra | lia | left; reflexivity].
Defined.

(* ================================================================== *)
(** ** The convergence series, continued *)

Lemma mc_convergence_loop_acc (S K T r sigma q : float64) (kind : string)
    (n_values : list Z) (acc : list float64) (g : rng) :
  mc_convergence_loop S K T r sigma kind q n_values acc g
  = (' (prices, g') <- mc_convergence_loop S K T r sigma kind q n_values [] g ;;
     Ok (acc ++ prices, g'))%result.
Proof.
  revert acc g. induction n_values as [| n rest IH]; intros acc g.
  - cbn [mc_convergence_loop bind]. now rewrite app_nil_r.
  - cbn [mc_convergence_loop].
    destruct (mc_pricing S K T r sigma kind n q g) as [[price g1] |];
      [| reflexivity].
    cbn [bind app]. rewrite (IH (acc ++ [price])), (IH [price]).
    destruct (mc_convergence_loop S K T r sigma kind q rest [] g1)
      as [[prices g2] |]; [| reflexivity].
    cbn [bind]. now rewrite <- app_assoc.
Qed.

(** X14.  Series compose.  Whatever the inputs, the convergence series of
    the path counts [l1 ++ l2] is the series of [l1] followed by the series
    of [l2] run on the random source as the first left it; if the first
    raises, so does the whole, and the second is not run. *)
Theorem mc_convergence_app (S K T r sigma q : float64) (kind : string)
    (l1 l2 : list Z) (g : rng) :
  mc_convergence S K T r sigma kind q (l1 ++ l2) g
  = (' (prices1, g1) <- mc_convergence S K T r sigma kind q l1 g ;;
     ' (prices2, g2) <- mc_convergence S K T r sigma kind q l2 g1 ;;
     Ok (prices1 ++ prices2, g2))%result.
Proof.
  unfold mc_convergence. revert g.
  induction l1 as [| n rest IH]; intro g.
  - cbn [app mc_convergence_loop bind].
    destruct (mc_convergence_loop S K T r sigma kind q l2 [] g)
      as [[prices2 g2] |]; reflexivity.
  - cbn [app mc_convergence_loop].
    destruct (mc_pricing S K T r sigma kind n q g) as [[price g1] |];
      [| reflexivity].
    cbn [bind app].
    rewrite (mc_convergence_loop_acc S K T r sigma q kind (rest ++ l2) [price]).
    rewrite (mc_convergence_loop_acc S K T r sigma q kind rest [price]).
    rewrite IH.
    destruct (mc_convergence_loop S K T r sigma kind q rest [] g1)
      as [[prices1 g2] |]; [| reflexivity].
    cbn [bind].
    destruct (mc_convergence_loop S K T r sigma kind q l2 [] g2)
      as [[prices2 g3] |]; reflexivity.
Qed.

(** X15.  A negative path count.  For a call or a put, as soon as one of
    the path counts is negative [mc_convergence] raises ValueError and
    returns none of the prices computed before it. *)
Theorem mc_convergence_negative_count (S K T r sigma q : float64)
    (kind : string) (n_values : list Z) (g : rng) :
  is_call kind = true \/ is_put kind = true ->
  Exists (fun n => (n < 0)%Z) n_values ->
  mc_convergence S K T r sigma kind q n_values g = Raise ValueError.
Proof.
  intros Hkind Hneg. unfold mc_convergence. generalize (@nil float64) as acc.
  revert g. induction n_values as [| n rest IH]; intros g acc.
  - inversion Hneg.
  - cbn [mc_convergence_loop].
    destruct (Z.ltb_spec n 0) as [Hn | Hn].
    + unfold mc_pricing, standard_normal.
      destruct (Z.ltb_spec n 0); [reflexivity | lia].
    + destruct (mc_pricing_returns S K T r sigma q kind n g Hkind Hn) as [v Hv].
      rewrite Hv. cbn [bind]. apply IH.
      inversion Hneg as [? ? Hhead | ? ? Htail]; [lia | exact Htail].
Qed.

Lemma mc_convergence_negative_count_witness :
  mc_convergence (Fin 100) (Fin 115) (Fin 0.5) (Fin 0.05) (Fin 0.2) "call"
    (Fin 0) [10%Z; (-1)%Z; 100%Z] (fun _ => 0)
  = Raise ValueError.
Proof.
  apply mc_convergence_negative_count; [left; reflexivity |].
  apply Exists_cons_tl, Exists_cons_hd. lia.
Defined.

(* ================================================================== *)
(** ** The Monte Carlo Greeks *)

Lemma pathwise_delta_call_Fin (S K : R) (l : list R) :
  S <> 0 ->
  map (fun s => (of_bool (s >? Fin K) * s / Fin S)%f64) (map Fin l)
  = map Fin (map (fun s => (if Rlt_dec K s then 1 else 0) * s / S) l).
Proof.
  intro HS. rewrite !map_map. apply map_ext. intro s.
  unfold fgtb. rewrite fltb_Fin.
  destruct (Rlt_dec K s); cbn [of_bool fmul]; now rewrite fdiv_Fin.
Qed.

Lemma pathwise_delta_put_Fin (S K : R) (l : list R) :
  S <> 0 ->
  map (fun s => (of_bool (s <? Fin K) * (- s / Fin S))%f64) (map Fin l)
  = map Fin (map (fun s => (if Rlt_dec s K then 1 else 0) * (- s / S)) l).
Proof.
  intro HS. rewrite !map_map. apply map_ext. intro s.
  rewrite fltb_Fin. cbn [fneg]. rewrite fdiv_Fin by assumption.
  destruct (Rlt_dec s K); reflexivity.
Qed.

Lemma map_nonempty {A B : Type} (f : A -> B) (l : list A) :
  l <> [] -> map f l <> [].
Proof. intros Hl H. apply map_eq_nil in H. contradiction. Qed.

Lemma mean_map_upper (f : R -> R) (hi : R) (l : list R) :
  l <> [] -> (forall z, f z <= hi) -> mean_R (map f l) <= hi.
Proof.
  intros Hl Hf.
  pose proof (mean_map_lower (fun z => - f z) (- hi) l Hl) as H.
  assert (Hb : forall z, - hi <= - f z) by (intro z; specialize (Hf z); lra).
  specialize (H Hb).
  pose proof (mean_map_minus (fun _ => 0) f l) as Hm.
  rewrite (mean_map_const (fun _ => 0) 0 l Hl) in Hm by reflexivity.
  rewrite (map_ext (fun z => 0 - f z) (fun z => - f z)) in Hm
    by (intro z; ring).
  lra.
Qed.

(** X16.  The pathwise delta.  For finite inputs with a positive spot,
    [T >= 0] and [n > 0], [mc_greeks] draws one sample of [n] numbers, the
    same amount [mc_pricing] draws, and returns a finite delta: not
    negative for a call, not positive for a put, whatever the draws and the
    bump sizes. *)
Theorem mc_greeks_delta_sign (S K T r sigma h dt q : R) (kind : string)
    (n : Z) (g : rng) :
  is_call kind = true \/ is_put kind = true ->
  0 < S -> 0 <= T -> (0 < n)%Z ->
  exists (gr : greeks) (d : R),
    mc_greeks (Fin S) (Fin K) (Fin T) (Fin r) (Fin sigma) kind n (Fin h)
      (Fin dt) (Fin q) g
    = Ok (gr, rng_skip (Z.to_nat n) g)
    /\ delta gr = Fin d
    /\ (is_call kind = true -> 0 <= d)
    /\ (is_put kind = true -> d <= 0).
Proof.
  intros Hkind HS HT Hn.
  assert (HS0 : S <> 0) by lra.
  pose proof (exp_pos (- r * T)) as Hd.
  assert (Hratio : forall z, 0 < terminal_price_R S T r sigma q z / S).
  { intro z. unfold terminal_price_R.
    replace (S * exp ((r - q - / 2 * sigma ^ 2) * T + sigma * sqrt T * z) / S)
      with (exp ((r - q - / 2 * sigma ^ 2) * T + sigma * sqrt T * z))
      by (field; lra).
    apply exp_pos. }
  destruct Hkind as [Hc | Hp].
  - eexists _, _. split; [| split].
    + unfold mc_greeks, payoff_of.
      rewrite standard_normal_returns by lia. rewrite Hc.
      cbn [bind read_local]. reflexivity.
    + cbn [delta]. cbv beta zeta.
      rewrite (final_stock_price_Fin S T r sigma q _ g HT).
      rewrite pathwise_delta_call_Fin by assumption.
      rewrite np_mean_Fin by (apply map_nonempty; now apply rng_draws_map_nonempty).
      reflexivity.
    + split;
        [| intro Hp'; rewrite (is_put_not_call _ Hp') in Hc; discriminate].
      intros _. apply Rmult_le_pos; [lra |]. rewrite map_map.
      apply mean_map_lower; [now apply rng_draws_nonempty |].
      intro z. specialize (Hratio z).
      destruct (Rlt_dec K _); unfold Rdiv in *; nra.
  - eexists _, _. split; [| split].
    + unfold mc_greeks, payoff_of.
      rewrite standard_normal_returns by lia.
      rewrite (is_put_not_call _ Hp), Hp.
      cbn [bind read_local]. reflexivity.
    + cbn [delta]. cbv beta zeta.
      rewrite (final_stock_price_Fin S T r sigma q _ g HT).
      rewrite pathwise_delta_put_Fin by assumption.
      rewrite np_mean_Fin by (apply map_nonempty; now apply rng_draws_map_nonempty).
      reflexivity.
    + split; [rewrite (is_put_not_call _ Hp); discriminate |].
      intros _.
      assert (Hm : mean_R
                     (map (fun s => (if Rlt_dec s K then 1 else 0) * (- s / S))
                        (map (terminal_price_R S T r sigma q)
                           (rng_draws (Z.to_nat n) g))) <= 0).
      { rewrite map_map.
        apply mean_map_upper; [now apply rng_draws_nonempty |].
        intro z. specialize (Hratio z).
        destruct (Rlt_dec _ K); unfold Rdiv in *; nra. }
      nra.
Qed.

Lemma mc_greeks_delta_sign_witness :
  exists (gr : greeks) (d : R),
    mc_greeks (Fin 150) (Fin 175) (Fin 0.5) (Fin 0.0426) (Fin 0.25) "call" 10
      (Fin 0.01) (Fin 0.01) (Fin 0) (fun i => INR i)
    = Ok (gr, rng_skip (Z.to_nat 10) (fun i => INR i))
    /\ delta gr = Fin d /\ 0 <= d.
Proof.
  destruct (mc_greeks_delta_sign 150 175 0.5 0.0426 0.25 0.01 0.01 0 "call" 10
              (fun i => INR i))
    as (gr & d & Hg & Hd & Hc & _); [left; reflexivity | lra | lra | lia |].
  exists gr, d. repeat split; try assumption. apply Hc. reflexivity.
Defined.

Lemma payoff_of_Fin (kind : string) (K : R) (l : list R) :
  is_call kind = true \/ is_put kind = true ->
  payoff_of kind (Fin K) (map Fin l) = Some (map Fin (map (payoff_R kind K) l)).
Proof.
  intros [Hc | Hp]; unfold payoff_of, payoff_R.
  - rewrite Hc. now rewrite payoff_call_Fin.
  - rewrite (is_put_not_call _ Hp), Hp. now rewrite payoff_put_Fin.
Qed.

(** The discounted mean payoff of the terminal prices of one sample, as
    [mc_greeks] computes it for a spot and an expiry. *)
Lemma sample_price_Fin (S K T r sigma q : R) (kind : string) (n : Z) (g : rng) :
  (0 < n)%Z ->
  (np_exp (- Fin r * Fin T)
   * np_mean (map Fin (map (payoff_R kind K)
                         (map (terminal_price_R S T r sigma q)
                            (rng_draws (Z.to_nat n) g)))))%f64
  = Fin (mc_estimate_R kind S K T r sigma q (rng_draws (Z.to_nat n) g)).
Proof.
  intro Hn.
  rewrite np_mean_Fin by (apply map_nonempty; now apply rng_draws_map_nonempty).
  unfold mc_estimate_R. now rewrite map_map.
Qed.

(** The shape of what [mc_greeks] returns on finite inputs: gamma and
    theta are quotients of differences of sample prices. *)
Lemma mc_greeks_shape (S K T r sigma h dt q : R) (kind : string) (n : Z)
    (g : rng) :
  is_call kind = true \/ is_put kind = true ->
  0 <= T -> (0 < n)%Z ->
  let draws := rng_draws (Z.to_nat n) g in
  let price := mc_estimate_R kind S K T r sigma q draws in
  let price_up := mc_estimate_R kind (S + h) K T r sigma q draws in
  let price_down := mc_estimate_R kind (S - h) K T r sigma q draws in
  let price_dt := mc_estimate_R kind S K (Rmax (T - dt) 1e-8) r sigma q draws in
  exists d v rh : float64,
    mc_greeks (Fin S) (Fin K) (Fin T) (Fin r) (Fin sigma) kind n (Fin h)
      (Fin dt) (Fin q) g
    = Ok (mkGreeks d
            (fdiv (Fin (price_up - 2 * price + price_down)) (Fin (h * h)))
            (fdiv (Fin (price_dt - price)) (Fin dt))
            v rh,
          rng_skip (Z.to_nat n) g).
Proof.
  intros Hkind HT Hn draws price price_up price_down price_dt.
  assert (Htime : py_max (Fin T - Fin dt)%f64 (Fin 1e-8)
                  = Fin (Rmax (T - dt) 1e-8)).
  { cbn [fsub fadd fneg]. apply py_max_Fin. }
  assert (Hfloor : 0 <= Rmax (T - dt) 1e-8).
  { apply Rle_trans with 1e-8; [lra | apply Rmax_r]. }
  assert (Hup : (Fin S + Fin h)%f64 = Fin (S + h)) by reflexivity.
  assert (Hdown : (Fin S - Fin h)%f64 = Fin (S - h)) by reflexivity.
  unfold mc_greeks.
  rewrite standard_normal_returns by lia. cbn [bind]. cbv beta zeta.
  rewrite Htime, Hup, Hdown.
  rewrite (final_stock_price_Fin S T r sigma q _ g HT).
  rewrite (final_stock_price_Fin (S + h) T r sigma q _ g HT).
  rewrite (final_stock_price_Fin (S - h) T r sigma q _ g HT).
  rewrite (final_stock_price_Fin S _ r sigma q _ g Hfloor).
  rewrite !payoff_of_Fin by assumption. cbn [read_local bind].
  rewrite !sample_price_Fin by assumption.
  fold draws. fold price. fold price_up. fold price_down. fold price_dt.
  destruct Hkind as [Hc | Hp].
  - rewrite Hc. cbn [read_local bind]. eexists _, _, _.
    cbn [fsub fadd fneg fmul fpow2]. reflexivity.
  - rewrite (is_put_not_call _ Hp), Hp. cbn [read_local bind]. eexists _, _, _.
    cbn [fsub fadd fneg fmul fpow2]. reflexivity.
Qed.

(** X17.  Gamma is a second difference of the Monte Carlo price.  For
    finite inputs with [T >= 0], [n > 0] and a bump [h <> 0], the gamma
    returned by [mc_greeks] is [(P(S+h) - 2 P(S) + P(S-h)) / h^2], where
    [P(x)] is the price [mc_pricing] returns for the spot [x] from the same
    state of the random source: the three prices share one sample. *)
Theorem mc_greeks_gamma_difference (S K T r sigma h dt q : R) (kind : string)
    (n : Z) (g : rng) :
  is_call kind = true \/ is_put kind = true ->
  0 <= T -> (0 < n)%Z -> h <> 0 ->
  exists (gr : greeks) (p p_up p_down : R),
    mc_greeks (Fin S) (Fin K) (Fin T) (Fin r) (Fin sigma) kind n (Fin h)
      (Fin dt) (Fin q) g
    = Ok (gr, rng_skip (Z.to_nat n) g)
    /\ mc_pricing (Fin S) (Fin K) (Fin T) (Fin r) (Fin sigma) kind n (Fin q) g
       = Ok (Fin p, rng_skip (Z.to_nat n) g)
    /\ mc_pricing (Fin (S + h)) (Fin K) (Fin T) (Fin r) (Fin sigma) kind n
         (Fin q) g
       = Ok (Fin p_up, rng_skip (Z.to_nat n) g)
    /\ mc_pricing (Fin (S - h)) (Fin K) (Fin T) (Fin r) (Fin sigma) kind n
         (Fin q) g
       = Ok (Fin p_down, rng_skip (Z.to_nat n) g)
    /\ gamma gr = Fin ((p_up - 2 * p + p_down) / (h * h)).
Proof.
  intros Hkind HT Hn Hh.
  destruct (mc_greeks_shape S K T r sigma h dt q kind n g Hkind HT Hn)
    as (d & v & rh & Hrun).
  eexists _, _, _, _.
  split; [exact Hrun |].
  split; [now apply mc_pricing_value |].
  split; [now apply mc_pricing_value |].
  split; [now apply mc_pricing_value |].
  cbn [gamma]. apply fdiv_Fin. nra.
Qed.

Lemma mc_greeks_gamma_difference_witness :
  exists (gr : greeks) (p p_up p_down : R),
    mc_greeks (Fin 150) (Fin 175) (Fin 0.5) (Fin 0.0426) (Fin 0.25) "call" 10
      (Fin 0.01) (Fin 0.01) (Fin 0) (fun i => INR i)
    = Ok (gr, rng_skip (Z.to_nat 10) (fun i => INR i))
    /\ mc_pricing (Fin 150) (Fin 175) (Fin 0.5) (Fin 0.0426) (Fin 0.25) "call"
         10 (Fin 0) (fun i => INR i)
       = Ok (Fin p, rng_skip (Z.to_nat 10) (fun i => INR i))
    /\ mc_pricing (Fin (150 + 0.01)) (Fin 175) (Fin 0.5) (Fin 0.0426) (Fin 0.25)
         "call" 10 (Fin 0) (fun i => INR i)
       = Ok (Fin p_up, rng_skip (Z.to_nat 10) (fun i => INR i))
    /\ mc_pricing (Fin (150 - 0.01)) (Fin 175) (Fin 0.5) (Fin 0.0426) (Fin 0.25)
         "call" 10 (Fin 0) (fun i => INR i)
       = Ok (Fin p_down, rng_skip (Z.to_nat 10) (fun i => INR i))
    /\ gamma gr = Fin ((p_up - 2 * p + p_down) / (0.01 * 0.01)).
Proof.
  apply (mc_greeks_gamma_difference 150 175 0.5 0.0426 0.25 0.01 0.01 0 "call"
           10 (fun i => INR i)); [left; reflexivity | lra | lia | lra].
Defined.

(** X18.  Theta is a forward difference in time, with a floor.  For finite
    inputs with [T >= 0], [n > 0] and [dt <> 0], the theta returned by
    [mc_greeks] is [(P(max(T - dt, 1e-8)) - P(T)) / dt], where [P(t)] is
    the price [mc_pricing] returns for the expiry [t] from the same state of
    the random source; the shortened expiry is never below [1e-8]. *)
Theorem mc_greeks_theta_difference (S K T r sigma h dt q : R) (kind : string)
    (n : Z) (g : rng) :
  is_call kind = true \/ is_put kind = true ->
  0 <= T -> (0 < n)%Z -> dt <> 0 ->
  exists (gr : greeks) (p p_dt : R),
    mc_greeks (Fin S) (Fin K) (Fin T) (Fin r) (Fin sigma) kind n (Fin h)
      (Fin dt) (Fin q) g
    = Ok (gr, rng_skip (Z.to_nat n) g)
    /\ mc_pricing (Fin S) (Fin K) (Fin T) (Fin r) (Fin sigma) kind n (Fin q) g
       = Ok (Fin p, rng_skip (Z.to_nat n) g)
    /\ mc_pricing (Fin S) (Fin K) (Fin (Rmax (T - dt) 1e-8)) (Fin r) (Fin sigma)
         kind n (Fin q) g
       = Ok (Fin p_dt, rng_skip (Z.to_nat n) g)
    /\ 1e-8 <= Rmax (T - dt) 1e-8
    /\ theta gr = Fin ((p_dt - p) / dt).
Proof.
  intros Hkind HT Hn Hdt.
  destruct (mc_greeks_shape S K T r sigma h dt q kind n g Hkind HT Hn)
    as (d & v & rh & Hrun).
  assert (Hfloor : 1e-8 <= Rmax (T - dt) 1e-8) by apply Rmax_r.
  eexists _, _, _.
  split; [exact Hrun |].
  split; [now apply mc_pricing_value |].
  split; [apply mc_pricing_value; (assumption || lra) |].
  split; [exact Hfloor |].
  cbn [theta]. now apply fdiv_Fin.
Qed.

Lemma mc_greeks_theta_difference_witness :
  exists (gr : greeks) (p p_dt : R),
    mc_greeks (Fin 150) (Fin 175) (Fin 0.5) (Fin 0.0426) (Fin 0.25) "call" 10
      (Fin 0.01) (Fin 1) (Fin 0) (fun i => INR i)
    = Ok (gr, rng_skip (Z.to_nat 10) (fun i => INR i))
    /\ mc_pricing (Fin 150) (Fin 175) (Fin 0.5) (Fin 0.0426) (Fin 0.25) "call"
         10 (Fin 0) (fun i => INR i)
       = Ok (Fin p, rng_skip (Z.to_nat 10) (fun i => INR i))
    /\ mc_pricing (Fin 150) (Fin 175) (Fin (Rmax (0.5 - 1) 1e-8)) (Fin 0.0426)
         (Fin 0.25) "call" 10 (Fin 0) (fun i => INR i)
       = Ok (Fin p_dt, rng_skip (Z.to_nat 10) (fun i => INR i))
    /\ 1e-8 <= Rmax (0.5 - 1) 1e-8
    /\ theta gr = Fin ((p_dt - p) / 1).
Proof.
  apply (mc_greeks_theta_difference 150 175 0.5 0.0426 0.25 0.01 1 0 "call"
           10 (fun i => INR i)); [left; reflexivity | lra | lia | lra].
Defined.

(** X19.  Zero bump sizes.  For finite inputs with [T >= 0] and [n > 0],
    [mc_greeks] does not raise when a bump size is zero: with [h = 0] the
    gamma it returns is [nan], and with [dt = 0] and [T >= 1e-8] the theta
    it returns is [nan]. *)
Theorem mc_greeks_zero_bump (S K T r sigma h dt q : R) (kind : string)
    (n : Z) (g : rng) :
  is_call kind = true \/ is_put kind = true ->
  0 <= T -> (0 < n)%Z ->
  exists gr : greeks,
    mc_greeks (Fin S) (Fin K) (Fin T) (Fin r) (Fin sigma) kind n (Fin h)
      (Fin dt) (Fin q) g
    = Ok (gr, rng_skip (Z.to_nat n) g)
    /\ (h = 0 -> gamma gr = NaN)
    /\ (dt = 0 -> 1e-8 <= T -> theta gr = NaN).
Proof.
  intros Hkind HT Hn.
  destruct (mc_greeks_shape S K T r sigma h dt q kind n g Hkind HT Hn)
    as (d & v & rh & Hrun).
  eexists. split; [exact Hrun |]. split.
  - intros ->. cbn [gamma].
    replace (S + 0) with S by ring. replace (S - 0) with S by ring.
    replace (0 * 0) with 0 by ring.
    rewrite fdiv_Fin_zero.
    match goal with
    | |- signed_inf (Rsign ?x) = _ => replace x with 0 by ring
    end.
    now rewrite Rsign_zero.
  - intros -> HT8. cbn [theta].
    replace (T - 0) with T by ring. rewrite Rmax_left by lra.
    rewrite fdiv_Fin_zero.
    match goal with
    | |- signed_inf (Rsign ?x) = _ => replace x with 0 by ring
    end.
    now rewrite Rsign_zero.
Qed.

Lemma mc_greeks_zero_bump_witness :
  exists gr : greeks,
    mc_greeks (Fin 150) (Fin 175) (Fin 0.5) (Fin 0.0426) (Fin 0.25) "call" 10
      (Fin 0) (Fin 0) (Fin 0) (fun i => INR i)
    = Ok (gr, rng_skip (Z.to_nat 10) (fun i => INR i))
    /\ gamma gr = NaN /\ theta gr = NaN.
Proof.
  destruct (mc_greeks_zero_bump 150 175 0.5 0.0426 0.25 0 0 0 "call" 10
              (fun i => INR i))
    as (gr & Hg & Hgam & Hth); [left; reflexivity | lra | lia |].
  exists gr. split; [exact Hg |]. split; [now apply Hgam | apply Hth; lra].
Defined.

(* ================================================================== *)
(** ** The random source of a series, and the case of the option kind *)

Lemma rng_after_all (n_values : list Z) (g : rng) (i : nat) :
  Forall (fun n => (0 <= n)%Z) n_values ->
  rng_after n_values (List.length n_values) g i
  = g (Z.to_nat (fold_right Z.add 0%Z n_values) + i)%nat.
Proof.
  intro Hall. revert g. induction Hall as [| n rest Hn Hrest IH]; intro g.
  - reflexivity.
  - cbn [List.length rng_after fold_right]. rewrite IH. unfold rng_skip.
    f_equal.
    assert (Hsum : (0 <= fold_right Z.add 0 rest)%Z).
    { clear IH. induction Hrest as [| m rest' Hm _ IH']; cbn [fold_right]; lia. }
    rewrite Z2Nat.inj_add by assumption. lia.
Qed.

(** X20.  The draws a series consumes.  For a call or a put and
    non-negative path counts, [mc_convergence] returns one price per path
    count and leaves the random source advanced by exactly the sum of the
    path counts. *)
Theorem mc_convergence_draws (S K T r sigma q : float64) (kind : string)
    (n_values : list Z) (g : rng) :
  is_call kind = true \/ is_put kind = true ->
  Forall (fun n => (0 <= n)%Z) n_values ->
  exists prices g',
    mc_convergence S K T r sigma kind q n_values g = Ok (prices, g')
    /\ List.length prices = List.length n_values
    /\ forall i, g' i = g (Z.to_nat (fold_right Z.add 0%Z n_values) + i)%nat.
Proof.
  intros Hkind Hall.
  destruct (mc_convergence_loop_prices S K T r sigma q kind n_values [] g
              Hkind Hall) as (prices & Hloop & Hlen & _).
  exists prices, (rng_after n_values (List.length n_values) g).
  split; [exact Hloop |]. split; [exact Hlen |].
  intro i. now apply rng_after_all.
Qed.

Lemma mc_convergence_draws_witness :
  exists prices g',
    mc_convergence (Fin 100) (Fin 115) (Fin 0.5) (Fin 0.05) (Fin 0.2) "call"
      (Fin 0) [10%Z; 100%Z; 250%Z] (fun i => INR i)
    = Ok (prices, g')
    /\ List.length prices = 3%nat
    /\ forall i, g' i = INR (Z.to_nat 360 + i).
Proof.
  apply (mc_convergence_draws (Fin 100) (Fin 115) (Fin 0.5) (Fin 0.05) (Fin 0.2)
           (Fin 0) "call" [10%Z; 100%Z; 250%Z] (fun i => INR i)).
  - left; reflexivity.
  - repeat constructor; lia.
Defined.

Lemma lower_ascii_idempotent (c : ascii) :
  lower_ascii (lower_ascii c) = lower_ascii c.
Proof.
  destruct c as [[] [] [] [] [] [] [] []]; reflexivity.
Qed.

Lemma lower_idempotent (s : string) : lower (lower s) = lower s.
Proof.
  induction s as [| c s IH]; [reflexivity |].
  cbn [lower]. now rewrite lower_ascii_idempotent, IH.
Qed.

Lemma for_range_ext {St Ret : Type} (body body' : St -> result (flow St Ret))
    (n : nat) (s : St) :
  (forall x, body x = body' x) -> for_range n body s = for_range n body' s.
Proof.
  intro Hext. revert s. induction n as [| n IH]; intro s; [reflexivity |].
  cbn [for_range]. rewrite Hext.
  destruct (body' s) as [[s' | s' | v] |]; cbn [bind]; auto.
Qed.

(** X21.  The option kind is read without regard to case.  Every operation
    returns for a kind what it returns for the lower-cased kind, so "CALL",
    "Call" and "call" are the same option, whatever the other arguments. *)
Theorem option_kind_case_insensitive (market S K T r sigma tol h dt q : float64)
    (kind : string) (n max_iter : Z) (g : rng) :
  bs_pricing S K T r sigma kind q = bs_pricing S K T r sigma (lower kind) q
  /\ bs_greeks S K T r sigma kind q = bs_greeks S K T r sigma (lower kind) q
  /\ mc_pricing S K T r sigma kind n q g
     = mc_pricing S K T r sigma (lower kind) n q g
  /\ mc_greeks S K T r sigma kind n h dt q g
     = mc_greeks S K T r sigma (lower kind) n h dt q g
  /\ implied_volatility market S K T r kind tol max_iter q
     = implied_volatility market S K T r (lower kind) tol max_iter q.
Proof.
  assert (Hc : is_call (lower kind) = is_call kind)
    by (unfold is_call; now rewrite lower_idempotent).
  assert (Hp : is_put (lower kind) = is_put kind)
    by (unfold is_put; now rewrite lower_idempotent).
  assert (Hbs : forall s, bs_pricing S K T r s kind q
                          = bs_pricing S K T r s (lower kind) q).
  { intro s. unfold bs_pricing. now rewrite Hc, Hp. }
  assert (Hgr : forall s, bs_greeks S K T r s kind q
                          = bs_greeks S K T r s (lower kind) q).
  { intro s. unfold bs_greeks. now rewrite Hc, Hp. }
  split; [apply Hbs |]. split; [apply Hgr |].
  split; [unfold mc_pricing; now rewrite Hc, Hp |].
  split; [unfold mc_greeks, payoff_of; now rewrite Hc, Hp |].
  unfold implied_volatility, bisection_phase.
  rewrite (for_range_ext
             (newton_body market S K T r kind tol q)
             (newton_body market S K T r (lower kind) tol q))
    by (intro s; unfold newton_body; now rewrite Hbs, Hgr).
  rewrite (for_range_ext
             (bisection_body market S K T r kind _ q)
             (bisection_body market S K T r (lower kind) _ q))
    by (intros [lo hi]; unfold bisection_body; now rewrite Hbs).
  reflexivity.
Qed.
